(** * BONESIM: the Boolean network simulator of [js/simulator.js]

    A shallow embedding of the simulation and attractor-search core of
    the [Simulator] class: the state codec ([encodeStateMap],
    [decodeStateMap]), the synchronous update ([synchronousUpdate]), the
    attractor search ([search], with [getInitStates]) and the two rule
    exports ([exportRBoolNet], [exportPythonBooleanNet]).

    JavaScript objects are embedded as property lists in enumeration
    order, JavaScript values as the three values the simulator stores in
    a state ([true], [false], [undefined]). *)

From Stdlib Require Import List Bool Arith NArith Lia.
From Stdlib Require Import Strings.String Strings.Ascii Numbers.DecimalString.
From Stdlib Require Numbers.HexadecimalString.
Import ListNotations.

Set Implicit Arguments.
Open Scope string_scope.

(** ** JavaScript values, numbers and objects *)

Module JS.

(** The values held by a state table and returned by rule functions
    built from [!], [&&], [||], [true], [false] and [state['id']]. *)
Inductive jsval : Type :=
| JBool (b : bool)
| JUndefined.

(** Numbers as far as the codec meets them: [+v] and [parseInt]. *)
Inductive jsnum : Type :=
| NaN
| Num (n : N).

Definition jsval_eqb (a b : jsval) : bool :=
  match a, b with
  | JBool x, JBool y => Bool.eqb x y
  | JUndefined, JUndefined => true
  | _, _ => false
  end.

(** [a !== b] *)
Definition strict_neq (a b : jsval) : bool := negb (jsval_eqb a b).

(** [Boolean(v)] on values, i.e. truthiness. *)
Definition truthy (v : jsval) : bool :=
  match v with
  | JBool b => b
  | JUndefined => false
  end.

(** [+v] *)
Definition toNumber (v : jsval) : jsnum :=
  match v with
  | JBool true => Num 1
  | JBool false => Num 0
  | JUndefined => NaN
  end.

(** The string a number contributes to [map += n]. *)
Definition numToString (n : jsnum) : string :=
  match n with
  | NaN => "NaN"
  | Num k => NilEmpty.string_of_uint (N.to_uint k)
  end.

(** [Boolean(n)] on numbers: [NaN] and [0] are false. *)
Definition numToBoolean (n : jsnum) : bool :=
  match n with
  | NaN => false
  | Num k => negb (N.eqb k 0)
  end.

Definition digit_of (c : ascii) : option N :=
  let n := N_of_ascii c in
  if (N.leb 48 n && N.leb n 57)%bool then Some (n - 48)%N else None.

(** [parseInt(x, 10)] where [x] is the result of indexing a string:
    either one character or [undefined].  A single character parses
    to a number only when it is a decimal digit; [undefined] is read
    as the text "undefined" and gives [NaN]. *)
Definition parseInt10 (x : option ascii) : jsnum :=
  match x with
  | None => NaN
  | Some c =>
      match digit_of c with
      | Some d => Num d
      | None => NaN
      end
  end.

(** *** Objects

    An object is the list of its own enumerable properties in the
    order [for (k in o)] visits them: array-index keys first, in
    ascending numeric order, then the other keys in insertion order.
    No enumerable property is taken to be inherited from a prototype.
    Texts are sequences of characters; the keys of states are written
    with the characters of ["0"], ["1"] and ["NaN"]. *)

Definition key := string.
Definition obj (V : Type) := list (key * V).

Definition keys {V} (o : obj V) : list key := map fst o.

Fixpoint digits_value (acc : N) (s : string) : option N :=
  match s with
  | EmptyString => Some acc
  | String c s' =>
      match digit_of c with
      | Some d => digits_value (10 * acc + d)%N s'
      | None => None
      end
  end.

(** A key is an array index when it is the canonical decimal text of
    an integer below [2^32 - 1]. *)
Definition array_index (k : key) : option N :=
  match k with
  | EmptyString => None
  | String c rest =>
      if Ascii.eqb c "0"%char
      then (match rest with EmptyString => Some 0%N | _ => None end)
      else
        match digits_value 0 k with
        | Some n => if N.leb n 4294967294 then Some n else None
        | None => None
        end
  end.

(** [key_before a b]: key [a] may be enumerated before key [b]. *)
Definition key_before (a b : key) : bool :=
  match array_index a, array_index b with
  | Some x, Some y => N.leb x y
  | Some _, None => true
  | None, None => true
  | None, Some _ => false
  end.

(** No key twice, and every key before the ones that follow it. *)
Fixpoint keys_ordered (l : list key) : bool :=
  match l with
  | [] => true
  | k :: l' =>
      negb (existsb (String.eqb k) l')
      && forallb (key_before k) l'
      && keys_ordered l'
  end.

(** Well-formed objects: no property twice, enumeration order kept. *)
Definition obj_wf {V} (o : obj V) : Prop :=
  keys_ordered (keys o) = true.

Fixpoint obj_get {V} (k : key) (o : obj V) : option V :=
  match o with
  | [] => None
  | (k', v) :: o' => if String.eqb k k' then Some v else obj_get k o'
  end.

Definition obj_mem {V} (k : key) (o : obj V) : bool :=
  match obj_get k o with
  | Some _ => true
  | None => false
  end.

Fixpoint obj_replace {V} (k : key) (v : V) (o : obj V) : obj V :=
  match o with
  | [] => []
  | (k', v') :: o' =>
      if String.eqb k k' then (k', v) :: o' else (k', v') :: obj_replace k v o'
  end.

Fixpoint obj_insert_index {V} (n : N) (k : key) (v : V) (o : obj V) : obj V :=
  match o with
  | [] => [(k, v)]
  | (k', v') :: o' =>
      match array_index k' with
      | Some n' =>
          if N.leb n' n then (k', v') :: obj_insert_index n k v o'
          else (k, v) :: o
      | None => (k, v) :: o
      end
  end.

(** [o[k] = v]: an existing property keeps its place; a new one is
    placed by the enumeration order. *)
Definition obj_set {V} (k : key) (v : V) (o : obj V) : obj V :=
  if obj_mem k o then obj_replace k v o
  else
    match array_index k with
    | Some n => obj_insert_index n k v o
    | None => (o ++ [(k, v)])%list
    end.

(** [o[k]] read as a value: a missing property reads [undefined]. *)
Definition js_get (k : key) (o : obj jsval) : jsval :=
  match obj_get k o with
  | Some v => v
  | None => JUndefined
  end.

(** [a.indexOf(x)], [None] standing for [-1]. *)
Fixpoint indexOf (x : string) (a : list string) : option nat :=
  match a with
  | [] => None
  | y :: a' =>
      if String.eqb x y then Some 0
      else match indexOf x a' with
           | Some i => Some (S i)
           | None => None
           end
  end.

(** [a.slice(idx)] for [0 <= idx]. *)
Definition slice {A} (idx : nat) (a : list A) : list A := skipn idx a.

(** [s.replace(/pat/g, rep)] for a pattern that is a literal,
    non-empty text: matches are taken left to right and do not
    overlap.  [skip] counts the characters of a match still to pass. *)
Fixpoint replace_from (pat rep : string) (skip : nat) (s : string) : string :=
  match s with
  | EmptyString => EmptyString
  | String c s' =>
      match skip with
      | S k => replace_from pat rep k s'
      | O =>
          if String.prefix pat s
          then rep ++ replace_from pat rep (String.length pat - 1) s'
          else String c (replace_from pat rep 0 s')
      end
  end.

Definition replace_all (pat rep : string) (s : string) : string :=
  replace_from pat rep 0 s.

(** Completion of a call: a value, a thrown [TypeError], or a loop
    that has not finished within the steps granted to it. *)
Inductive outcome (A : Type) : Type :=
| Ok (a : A)
| TypeError
| OutOfFuel.
Arguments TypeError {A}.
Arguments OutOfFuel {A}.

End JS.
Import JS.

(** ** The simulator *)

Module Simulator.

(** A state table, [network.state] or one of its copies. *)
Definition State := obj jsval.

(** A rule function: [ruleFunctions[id]], called with a state. *)
Definition RuleFunction := State -> jsval.

(** [makeRuleFunction] rewrites every identifier of a rule text to
    [state['id']] (keeping [true] and [false]) and hands the text to
    [Function].  The rule texts of the simulator are Boolean
    expressions; [rexpr] is their syntax after that rewriting and
    [ruleBody] is what the generated function returns. *)
Inductive rexpr : Type :=
| RTrue
| RFalse
| RVar (id : key)
| RNot (e : rexpr)
| RAnd (a b : rexpr)
| ROr (a b : rexpr).

Fixpoint ruleBody (e : rexpr) (state : State) : jsval :=
  match e with
  | RTrue => JBool true
  | RFalse => JBool false
  | RVar id => js_get id state
  | RNot a => JBool (negb (truthy (ruleBody a state)))
  | RAnd a b =>
      let va := ruleBody a state in
      if truthy va then ruleBody b state else va
  | ROr a b =>
      let va := ruleBody a state in
      if truthy va then va else ruleBody b state
  end.

(** The identifiers a rule body reads. *)
Fixpoint rule_ids (e : rexpr) : list key :=
  match e with
  | RTrue | RFalse => []
  | RVar id => [id]
  | RNot a => rule_ids a
  | RAnd a b | ROr a b => (rule_ids a ++ rule_ids b)%list
  end.

(** [initialize], the state table: one entry per rule with a
    non-empty text, holding what [controls.getInitialSeed()] returned
    for it ([seed c] is the result of the call number [c]). *)
Fixpoint initialize_state (rs : obj string) (seed : nat -> jsval)
         (c : nat) (st : State) : State :=
  match rs with
  | [] => st
  | (i, text) :: rs' =>
      if Nat.eqb (String.length text) 0
      then initialize_state rs' seed c st
      else initialize_state rs' seed (S c) (obj_set i (seed c) st)
  end.

(** *** [synchronousUpdate] *)

(** First loop: [newState[i] = ruleFunctions[i](state)] and
    [changed.push(i)] when the candidate differs. *)
Fixpoint candidates (ruleFunctions : obj RuleFunction) (state : State)
         (ids : list key) (newState : State) (changed : list key)
  : outcome (State * list key) :=
  match ids with
  | [] => Ok (newState, changed)
  | i :: ids' =>
      match obj_get i ruleFunctions with
      | None => TypeError
      | Some f =>
          let newState' := obj_set i (f state) newState in
          candidates ruleFunctions state ids' newState'
            (if strict_neq (js_get i newState') (js_get i state)
             then (changed ++ [i])%list else changed)
      end
  end.

(** Second loop: [state[id] = newState[id]] for the changed ids. *)
Fixpoint apply_changed (newState : State) (changed : list key)
         (state : State) : State :=
  match changed with
  | [] => state
  | id :: changed' =>
      apply_changed newState changed' (obj_set id (js_get id newState) state)
  end.

(** The call returns [changed]; the state it has mutated is returned
    with it. *)
Definition synchronousUpdate (net_state : State)
           (ruleFunctions : obj RuleFunction) (state : State)
  : outcome (State * list key) :=
  match candidates ruleFunctions state (keys net_state) [] [] with
  | Ok (newState, changed) => Ok (apply_changed newState changed state, changed)
  | TypeError => TypeError
  | OutOfFuel => OutOfFuel
  end.

(** *** The state codec *)

Definition encodeStateMap (state : State) : string :=
  fold_left (fun map (p : key * jsval) => map ++ numToString (toNumber (snd p)))
            state "".

Fixpoint decode_loop (ids : list key) (map : string) (j : nat)
         (state : State) : State :=
  match ids with
  | [] => state
  | i :: ids' =>
      decode_loop ids' map (S j)
        (obj_set i (JBool (numToBoolean (parseInt10 (String.get j map)))) state)
  end.

Definition decodeStateMap (net_state : State) (map : string) : State :=
  decode_loop (keys net_state) map 0 [].

(** *** [getInitStates]

    [rnd c] tells whether the call number [c] of
    [Math.round(Math.random())] gave 1. *)
Fixpoint random_state (ids : list key) (rnd : nat -> bool) (c : nat)
         (st : State) : State * nat :=
  match ids with
  | [] => (st, c)
  | j :: ids' => random_state ids' rnd (S c) (obj_set j (JBool (rnd c)) st)
  end.

Fixpoint init_states (count : nat) (net_state : State) (rnd : nat -> bool)
         (c : nat) : list State :=
  match count with
  | O => []
  | S count' =>
      let (st, c') := random_state (keys net_state) rnd c [] in
      st :: init_states count' net_state rnd c'
  end.

Definition getInitStates (net_state : State) (rnd : nat -> bool) : list State :=
  init_states 30 net_state rnd 0.

(** *** The state transition graph *)

Record Arc : Type := {
  arc_id : string;
  arc_source : string;
  arc_target : string
}.

(** Modelled from the spec: the graph document [sb.Document] of the
    SBGN library, which is not part of the sources.  A document holds
    its nodes by id and its arcs; [doc.node(id)] is not [null] exactly
    when a node of that id has been created.  The types given to nodes
    and arcs play no part in the search and are not kept. *)
Record Document : Type := {
  doc_nodes : list string;
  doc_arcs : list Arc
}.

Definition new_document : Document := {| doc_nodes := []; doc_arcs := [] |}.

(** [doc.node(id) !== null] *)
Definition has_node (doc : Document) (id : string) : bool :=
  existsb (String.eqb id) (doc_nodes doc).

Definition createNode (doc : Document) (id : string) : Document :=
  {| doc_nodes := (doc_nodes doc ++ [id])%list; doc_arcs := doc_arcs doc |}.

Definition createArc (doc : Document) (source target : string) : Document :=
  {| doc_nodes := doc_nodes doc;
     doc_arcs := (doc_arcs doc ++
                  [{| arc_id := source ++ "->" ++ target;
                      arc_source := source;
                      arc_target := target |}])%list |}.

(** [if (prev.length > 0) doc.createArc(prev + '->' + map)...] *)
Definition connect (doc : Document) (prev map : string) : Document :=
  if Nat.ltb 0 (String.length prev) then createArc doc prev map else doc.

(** *** [search]

    The model follows the local stepping path, [obj.scopes] being
    [false] as the constructor sets it. *)

(** The variables of [search] when a trajectory loop is left. *)
Record Trajectory : Type := {
  t_doc : Document;
  t_attractors : list (list string);
  t_currStates : list string;
  t_state : State;
  t_j : nat
}.

(** The loop [for (j = 0;; j++)].  [fuel] bounds the number of
    iterations the model follows. *)
Fixpoint trajectory (fuel : nat) (net_state : State)
         (ruleFunctions : obj RuleFunction)
         (doc : Document) (attractors : list (list string))
         (currStates : list string) (prev : string) (state : State)
         (j : nat) : outcome Trajectory :=
  match fuel with
  | O => OutOfFuel
  | S fuel' =>
      let map := encodeStateMap state in
      if has_node doc map then
        let attractors' :=
          match indexOf map currStates with
          | Some idx => (attractors ++ [slice idx currStates])%list
          | None => attractors
          end in
        Ok {| t_doc := connect doc prev map;
              t_attractors := attractors';
              t_currStates := currStates;
              t_state := state;
              t_j := j |}
      else
        let doc' := connect (createNode doc map) prev map in
        let currStates' := (currStates ++ [map])%list in
        match synchronousUpdate net_state ruleFunctions state with
        | Ok (state', _) =>
            trajectory fuel' net_state ruleFunctions doc' attractors
                       currStates' map state' (S j)
        | TypeError => TypeError
        | OutOfFuel => OutOfFuel
        end
  end.

(** The loop [for (i in initStates)]. *)
Fixpoint search_from (fuel : nat) (net_state : State)
         (ruleFunctions : obj RuleFunction) (initStates : list State)
         (doc : Document) (attractors : list (list string))
  : outcome (Document * list (list string)) :=
  match initStates with
  | [] => Ok (doc, attractors)
  | st :: rest =>
      match trajectory fuel net_state ruleFunctions doc attractors [] "" st 0 with
      | Ok r =>
          search_from fuel net_state ruleFunctions rest (t_doc r) (t_attractors r)
      | TypeError => TypeError
      | OutOfFuel => OutOfFuel
      end
  end.

(** [search] up to the call of [drawAttractors(doc, attractors)]. *)
Definition search (fuel : nat) (net_state : State)
           (ruleFunctions : obj RuleFunction) (rnd : nat -> bool)
  : outcome (Document * list (list string)) :=
  search_from fuel net_state ruleFunctions (getInitStates net_state rnd)
              new_document [].

(** *** The exports *)

Definition newline : string := String (ascii_of_nat 10) EmptyString.

Definition rboolnet_rule (text : string) : string :=
  replace_all "false" "FALSE"
    (replace_all "true" "TRUE"
      (replace_all "||" "|"
        (replace_all "&&" "&" text))).

Definition exportRBoolNet (rs : obj string) : string :=
  fold_left (fun rbn (p : key * string) =>
               rbn ++ fst p ++ ", " ++ rboolnet_rule (snd p) ++ newline)
            rs ("targets, factors" ++ newline).

Definition booleannet_rule (text : string) : string :=
  replace_all "!" "not"
    (replace_all "false" "False"
      (replace_all "true" "True"
        (replace_all "||" "or"
          (replace_all "&&" "and" text)))).

Definition exportPythonBooleanNet (rs : obj string) : string :=
  fold_left (fun pbn (p : key * string) =>
               pbn ++ fst p ++ "* = " ++ booleannet_rule (snd p) ++ newline)
            rs "".

End Simulator.
Import Simulator.

(** ** Networks used as examples *)

Module Networks.

(** Two nodes, each the negation of the other: [A = !B], [B = !A]. *)
Definition negation_state (a b : bool) : State :=
  [("A", JBool a); ("B", JBool b)].

Definition negation_rules : obj RuleFunction :=
  [("A", ruleBody (RNot (RVar "B"))); ("B", ruleBody (RNot (RVar "A")))].

(** One node with the rule [A = true]. *)
Definition constant_state (a : bool) : State := [("A", JBool a)].

Definition constant_rules : obj RuleFunction :=
  [("A", ruleBody RTrue)].

(** One node [A] with the rule [!!A && X], where [X] has no rule and
    hence no entry in the state. *)
Definition latch_rules : obj RuleFunction :=
  [("A", ruleBody (RAnd (RNot (RNot (RVar "A"))) (RVar "X")))].

(** The rule table of the export example. *)
Definition export_rules : obj string :=
  [("X", "A && !B || true")].

End Networks.
Import Networks.


(** ** Notions the statements use *)

Module Notions.

Definition is_bool (v : jsval) : bool :=
  match v with
  | JBool _ => true
  | JUndefined => false
  end.

(** Every entry of the state holds a Boolean. *)
Definition boolean_state (s : State) : bool :=
  forallb (fun p : key * jsval => is_bool (snd p)) s.

(** A full state: one entry per dynamic node, in the network's order. *)
Definition full_state (net_state s : State) : Prop :=
  keys s = keys net_state.

(** The characters ['0'] to ['9']. *)
Definition is_digit (c : ascii) : bool :=
  existsb (Ascii.eqb c) (list_ascii_of_string "0123456789").

(** The value decoding gives to the node at position [j]. *)
Definition decoded_value (map : string) (j : nat) : jsval :=
  JBool (numToBoolean (parseInt10 (String.get j map))).

(** The entries decoding builds for [ids] from position [j] on. *)
Fixpoint decode_entries (ids : list key) (map : string) (j : nat) : State :=
  match ids with
  | [] => []
  | i :: ids' => (i, decoded_value map j) :: decode_entries ids' map (S j)
  end.

(** The text one entry contributes to a key. *)
Definition key_text (v : jsval) : string := numToString (toNumber v).

(** The state after [m] synchronous updates. *)
Fixpoint advance (m : nat) (net_state : State)
         (ruleFunctions : obj RuleFunction) (s : State) : outcome State :=
  match m with
  | O => Ok s
  | S m' =>
      match synchronousUpdate net_state ruleFunctions s with
      | Ok (s', _) => advance m' net_state ruleFunctions s'
      | TypeError => TypeError
      | OutOfFuel => OutOfFuel
      end
  end.

(** The rule function of [i] gives a value other than the one [i]
    holds in [state]. *)
Definition differs (ruleFunctions : obj RuleFunction) (state : State)
           (i : key) : bool :=
  match obj_get i ruleFunctions with
  | Some f => strict_neq (f state) (js_get i state)
  | None => false
  end.

(** [s] is left as it is by a synchronous update. *)
Definition fixed_point (net_state : State)
           (ruleFunctions : obj RuleFunction) (s : State) : Prop :=
  synchronousUpdate net_state ruleFunctions s = Ok (s, []).

(** Every dynamic node has a rule function, and on full Boolean
    states the rule functions return Booleans. *)
Definition boolean_rules (net_state : State)
           (ruleFunctions : obj RuleFunction) : Prop :=
  forall i, In i (keys net_state) ->
    exists f, obj_get i ruleFunctions = Some f /\
      forall s, full_state net_state s -> boolean_state s = true ->
                is_bool (f s) = true.

(** What a trajectory that stops on the key [k] with the visited
    list [visited] records: nothing when [k] is not in the list,
    otherwise the part of the list from the first [k] to the end. *)
Definition records (attractors : list (list string))
           (visited : list string) (k : string)
           (attractors' : list (list string)) : Prop :=
  (~ In k visited /\ attractors' = attractors)
  \/ (exists pre post,
         visited = (pre ++ k :: post)%list /\ ~ In k pre
         /\ attractors' = (attractors ++ [k :: post])%list).


(** The entries [getInitStates] draws for [ids] from call [c] on. *)
Fixpoint random_entries (ids : list key) (rnd : nat -> bool) (c : nat)
  : State :=
  match ids with
  | [] => []
  | i :: ids' => (i, JBool (rnd c)) :: random_entries ids' rnd (S c)
  end.

(** The keys of [n] characters, each ['0'] or ['1']. *)
Fixpoint bit_keys (n : nat) : list string :=
  match n with
  | O => [""]
  | S n' => (map (String "0"%char) (bit_keys n')
             ++ map (String "1"%char) (bit_keys n'))%list
  end.

End Notions.
Import Notions.

(** ** Notions for the transition graph *)

Module Graph.

(** [k'] is the key of the state that one synchronous update makes of
    a full state of key [k]. *)
Definition transition (net_state : State) (ruleFunctions : obj RuleFunction)
           (k k' : string) : Prop :=
  exists s s' changed,
    full_state net_state s
    /\ synchronousUpdate net_state ruleFunctions s = Ok (s', changed)
    /\ encodeStateMap s = k /\ encodeStateMap s' = k'.

(** Each key of the list is followed by a key it is related to. *)
Fixpoint chained (R : string -> string -> Prop) (l : list string) : Prop :=
  match l with
  | a :: (b :: _) as t => R a b /\ chained R t
  | _ => True
  end.

(** A cycle: a chain whose last key leads back to its first. *)
Definition is_cycle (R : string -> string -> Prop) (c : list string) : Prop :=
  c <> [] /\ chained R c /\ R (last c "") (hd "" c).

(** Every arc joins two nodes of the document, is named after them
    and stands for a transition of the network. *)
Definition arcs_valid (net_state : State) (ruleFunctions : obj RuleFunction)
           (doc : Document) : Prop :=
  forall a, In a (doc_arcs doc) ->
    In (arc_source a) (doc_nodes doc)
    /\ In (arc_target a) (doc_nodes doc)
    /\ arc_id a = arc_source a ++ "->" ++ arc_target a
    /\ transition net_state ruleFunctions (arc_source a) (arc_target a).

(** Inside a trajectory loop: [prev] is the key visited last and
    [state] is what the update made of the state of that key. *)
Definition linked (net_state : State) (ruleFunctions : obj RuleFunction)
           (currStates : list string) (prev : string) (state : State) : Prop :=
  (currStates = [] /\ prev = "")
  \/ exists l s changed,
       currStates = (l ++ [prev])%list
       /\ full_state net_state s
       /\ encodeStateMap s = prev
       /\ synchronousUpdate net_state ruleFunctions s = Ok (state, changed).

(** What the search keeps true of its document and attractor list. *)
Definition graph_sound (net_state : State) (ruleFunctions : obj RuleFunction)
           (doc : Document) (attractors : list (list string)) : Prop :=
  NoDup (doc_nodes doc)
  /\ arcs_valid net_state ruleFunctions doc
  /\ Forall (is_cycle (transition net_state ruleFunctions)) attractors
  /\ NoDup (List.concat attractors)
  /\ incl (List.concat attractors) (doc_nodes doc).

End Graph.
Import Graph.

(** ** Rules and node states: [makeRuleFunction], [initialize],
    [updateRule], [toggleNodeState] *)

Module Editing.

(** The characters matched by [[A-Za-z0-9_]]. *)
Definition is_word_char (c : ascii) : bool :=
  let n := N_of_ascii c in
  ((N.leb 65 n && N.leb n 90) || (N.leb 97 n && N.leb n 122)
   || (N.leb 48 n && N.leb n 57) || N.eqb n 95)%bool.

(** The replacement callback of [makeRuleFunction]: [true] and [false]
    are kept, any other match becomes a lookup in the state. *)
Definition substitute (text : string) : string :=
  if (String.eqb text "true" || String.eqb text "false")%bool then text
  else "state['" ++ text ++ "']".

(** A match ends: an empty run of word characters is no match. *)
Definition flush (word : string) : string :=
  match word with
  | EmptyString => EmptyString
  | String _ _ => substitute word
  end.

(** [rule.replace(/[A-Za-z0-9_]+/g, ...)]: every longest run of word
    characters is a match.  [word] is the run read so far. *)
Fixpoint replace_words (word : string) (rule : string) : string :=
  match rule with
  | EmptyString => flush word
  | String c rule' =>
      if is_word_char c then replace_words (word ++ String c EmptyString) rule'
      else flush word ++ String c (replace_words EmptyString rule')
  end.

(** [newRule] in [makeRuleFunction]. *)
Definition newRule (rule : string) : string := replace_words EmptyString rule.

(** The body text [makeRuleFunction] hands to [Function("state", ...)]. *)
Definition functionBody (rule : string) : string :=
  "return " ++ newRule rule ++ ";".

(** The text of a Boolean expression, binary operations in
    parentheses; [ident] writes the identifiers. *)
Fixpoint show_rule (ident : key -> string) (e : rexpr) : string :=
  match e with
  | RTrue => "true"
  | RFalse => "false"
  | RVar id => ident id
  | RNot a => "!" ++ show_rule ident a
  | RAnd a b => "(" ++ show_rule ident a ++ " && " ++ show_rule ident b ++ ")"
  | ROr a b => "(" ++ show_rule ident a ++ " || " ++ show_rule ident b ++ ")"
  end.

(** The text is empty or starts with a character that ends a match. *)
Definition starts_clear (rest : string) : bool :=
  match rest with
  | EmptyString => true
  | String c _ => negb (is_word_char c)
  end.

Fixpoint all_word_chars (s : string) : bool :=
  match s with
  | EmptyString => true
  | String c s' => (is_word_char c && all_word_chars s')%bool
  end.

(** A node id that a rule text can name: a non-empty run of word
    characters other than [true] and [false]. *)
Definition is_identifier (id : key) : bool :=
  (negb (String.eqb id EmptyString) && all_word_chars id
   && negb (String.eqb id "true") && negb (String.eqb id "false"))%bool.




(** [toggleNodeState]: [network.state[id] = !network.state[id]]. *)
Definition toggleNodeState (id : key) (state : State) : State :=
  obj_set id (JBool (negb (truthy (js_get id state)))) state.

End Editing.
Import Editing.

(** ** Stepping by the remote service: [updateNodeRules] and [search]
    with [obj.scopes] set *)

Module Remote.

(** A state as the service sends it: a number per node. *)
Definition RemoteState := obj jsnum.

(** The state a remote state stands for. *)
Definition remote_image (state : RemoteState) : State :=
  map (fun p : key * jsnum => (fst p, JBool (numToBoolean (snd p)))) state.

(** The rule functions are constant on the ids of [network.state]
    and give there the values of [image]. *)
Definition pinned (net_state : State) (ruleFunctions : obj RuleFunction)
           (image : State) : Prop :=
  forall k, In k (keys net_state) ->
    exists f, obj_get k ruleFunctions = Some f
              /\ forall s, f s = js_get k image.

(** [updateNodeRules]: every node of [state] gets a constant rule
    function. *)
Fixpoint updateNodeRules (state : RemoteState)
         (ruleFunctions : obj RuleFunction) : obj RuleFunction :=
  match state with
  | [] => ruleFunctions
  | (i, v) :: state' =>
      updateNodeRules state'
        (obj_set i (fun _ : State => JBool (numToBoolean v)) ruleFunctions)
  end.

(** The trajectory loop when [obj.scopes] is set.  [statesList] is the
    parsed answer of the service, [None] when the request failed and the
    variable was left undefined; [i] is the number of the initial state.
    Reading [statesList[i][j + 1]] throws when [statesList] or
    [statesList[i]] is undefined; an undefined [statesList[i][j + 1]]
    leaves the rule functions as they are.  The rule functions are
    returned, since the loop overwrites them. *)
Fixpoint trajectory_scopes (fuel : nat) (net_state : State)
         (statesList : option (list (list RemoteState))) (i : nat)
         (ruleFunctions : obj RuleFunction)
         (doc : Document) (attractors : list (list string))
         (currStates : list string) (prev : string) (state : State)
         (j : nat) : outcome (Trajectory * obj RuleFunction) :=
  match fuel with
  | O => OutOfFuel
  | S fuel' =>
      let map := encodeStateMap state in
      if has_node doc map then
        let attractors' :=
          match indexOf map currStates with
          | Some idx => (attractors ++ [slice idx currStates])%list
          | None => attractors
          end in
        Ok ({| t_doc := connect doc prev map;
               t_attractors := attractors';
               t_currStates := currStates;
               t_state := state;
               t_j := j |}, ruleFunctions)
      else
        let doc' := connect (createNode doc map) prev map in
        let currStates' := (currStates ++ [map])%list in
        match statesList with
        | None => TypeError
        | Some rows =>
            match nth_error rows i with
            | None => TypeError
            | Some row =>
                let ruleFunctions' :=
                  match nth_error row (S j) with
                  | Some next => updateNodeRules next ruleFunctions
                  | None => ruleFunctions
                  end in
                match synchronousUpdate net_state ruleFunctions' state with
                | Ok (state', _) =>
                    trajectory_scopes fuel' net_state statesList i
                      ruleFunctions' doc' attractors currStates' map state'
                      (S j)
                | TypeError => TypeError
                | OutOfFuel => OutOfFuel
                end
            end
        end
  end.

(** The loop over the initial states when [obj.scopes] is set. *)
Fixpoint search_scopes_from (fuel : nat) (net_state : State)
         (statesList : option (list (list RemoteState))) (i : nat)
         (ruleFunctions : obj RuleFunction) (initStates : list State)
         (doc : Document) (attractors : list (list string))
  : outcome (Document * list (list string) * obj RuleFunction) :=
  match initStates with
  | [] => Ok (doc, attractors, ruleFunctions)
  | st :: rest =>
      match trajectory_scopes fuel net_state statesList i ruleFunctions doc
                              attractors [] "" st 0 with
      | Ok (r, ruleFunctions') =>
          search_scopes_from fuel net_state statesList (S i) ruleFunctions'
                             rest (t_doc r) (t_attractors r)
      | TypeError => TypeError
      | OutOfFuel => OutOfFuel
      end
  end.

(** [search] with [obj.scopes] set, up to [drawAttractors]. *)
Definition search_scopes (fuel : nat) (net_state : State)
           (statesList : option (list (list RemoteState)))
           (ruleFunctions : obj RuleFunction) (rnd : nat -> bool)
  : outcome (Document * list (list string) * obj RuleFunction) :=
  search_scopes_from fuel net_state statesList 0 ruleFunctions
                     (getInitStates net_state rnd) new_document [].

(** The inner loop of [exportStateJSON]: the object that takes the
    place of one state, [1] for a truthy value and [0] otherwise. *)
Fixpoint export_entries (entries : State) (exported : RemoteState)
  : RemoteState :=
  match entries with
  | [] => exported
  | (j, v) :: entries' =>
      export_entries entries'
        (obj_set j (if truthy v then Num 1 else Num 0) exported)
  end.

(** [exportStates] in [exportStateJSON]: the array handed to
    [JSON.stringify]; the text made of it is not modelled. *)
Definition exportStates (states : list State) : list RemoteState :=
  map (fun st => export_entries st []) states.

(** The callback of [applyGuessSeed] on the parsed answer [seed]:
    every node of the seed is set to [true] or [false] in
    [network.state]. *)
Fixpoint applyGuessSeed (seed : RemoteState) (state : State) : State :=
  match seed with
  | [] => state
  | (i, v) :: seed' =>
      applyGuessSeed seed' (obj_set i (JBool (numToBoolean v)) state)
  end.

End Remote.
Import Remote.

(** ** The simulation run: [getRandomColor], [createPlotter],
    [updatePlots], [run], [singleIteration], [start], [stop] *)

Module Control.

(** [n.toString(16)] *)
Definition toString16 (n : N) : string :=
  HexadecimalString.NilZero.string_of_uint (N.to_hex_uint n).

(** The loop of [getRandomColor]; [draw c] is what
    [Math.round(Math.random() * 0xF)] gives at its call number [c]. *)
Fixpoint random_digits (count : nat) (draw : nat -> N) (c : nat)
         (color : string) : string * nat :=
  match count with
  | O => (color, c)
  | S count' => random_digits count' draw (S c) (color ++ toString16 (draw c))
  end.

Definition getRandomColor (draw : nat -> N) (c : nat) : string * nat :=
  random_digits 6 draw c "#".

(** A hexadecimal digit, in lower case. *)
Definition is_hex (ch : ascii) : bool :=
  existsb (Ascii.eqb ch) (list_ascii_of_string "0123456789abcdef").

(** A colour code: [#] and six hexadecimal digits. *)
Definition is_color (color : string) : bool :=
  match color with
  | String "#"%char digits =>
      (Nat.eqb (String.length digits) 6
       && forallb is_hex (list_ascii_of_string digits))%bool
  | _ => false
  end.

(** A series of the plot: one point per iteration. *)
Record Series : Type := {
  series_color : string;
  series_data : list (nat * jsnum);
  series_name : key
}.

(** The time series [createPlotter] builds from the state. *)
Fixpoint createSeries (ids : list key) (state : State) (draw : nat -> N)
         (c : nat) : list Series * nat :=
  match ids with
  | [] => ([], c)
  | i :: ids' =>
      let (color, c') := getRandomColor draw c in
      let (rest, c'') := createSeries ids' state draw c' in
      ({| series_color := color;
          series_data := [(0, toNumber (js_get i state))];
          series_name := i |} :: rest, c'')
  end.

(** [updatePlots]: every series gets the point
    [{x: iterationCount, y: +state[id]}]. *)
Definition updatePlots (plot : list Series) (iterationCount : nat)
           (state : State) : list Series :=
  map (fun sr =>
         {| series_color := series_color sr;
            series_data :=
              (series_data sr
               ++ [(iterationCount, toNumber (js_get (series_name sr) state))])%list;
            series_name := series_name sr |})
      plot.

(** The simulator between two events. *)
Record Sim : Type := {
  running : bool;
  iterationCount : nat;
  sim_state : State;
  sim_rules : obj RuleFunction;
  plot : list Series
}.

(** How a call of [run] ends: it returns at once, it sets the timer
    for the next call, it stops the simulator, or it throws. *)
Inductive Tick : Type :=
| Ignored
| Scheduled
| Settled
| Threw.

Definition stop (sim : Sim) : Sim :=
  {| running := false;
     iterationCount := iterationCount sim;
     sim_state := sim_state sim;
     sim_rules := sim_rules sim;
     plot := plot sim |}.

Definition singleIteration (sim : Sim) : Sim * Tick :=
  match synchronousUpdate (sim_state sim) (sim_rules sim) (sim_state sim) with
  | Ok (state', changed) =>
      let sim' := {| running := running sim;
                     iterationCount := iterationCount sim;
                     sim_state := state';
                     sim_rules := sim_rules sim;
                     plot := plot sim |} in
      if Nat.ltb 0 (List.length changed) then (sim', Scheduled)
      else (stop sim', Settled)
  | TypeError => (sim, Threw)
  | OutOfFuel => (sim, Threw)
  end.

Definition run (sim : Sim) : Sim * Tick :=
  if negb (running sim) then (sim, Ignored)
  else
    singleIteration
      {| running := running sim;
         iterationCount := S (iterationCount sim);
         sim_state := sim_state sim;
         sim_rules := sim_rules sim;
         plot := updatePlots (plot sim) (iterationCount sim) (sim_state sim) |}.

Definition start (sim : Sim) : Sim * Tick :=
  run {| running := true;
         iterationCount := iterationCount sim;
         sim_state := sim_state sim;
         sim_rules := sim_rules sim;
         plot := plot sim |}.

(** The calls of [run] made by the timer, one after the other, as long
    as each sets the timer again and nothing else happens in between. *)
Fixpoint timer_runs (fuel : nat) (sim : Sim) : option (Sim * Tick * nat) :=
  match fuel with
  | O => None
  | S fuel' =>
      match run sim with
      | (sim', Scheduled) =>
          match timer_runs fuel' sim' with
          | Some (sim'', t, count) => Some (sim'', t, S count)
          | None => None
          end
      | (sim', t) => Some (sim', t, 1)
      end
  end.

(** [createPlotter], the time series of the state. *)
Definition createPlotter (state : State) (draw : nat -> N) (c : nat)
  : list Series * nat :=
  createSeries (keys state) state draw c.

End Control.
Import Control.

(** ** Notions for the exported texts *)

Module Texts.

(** The character [c] does not occur in [s]. *)
Fixpoint lacks (c : ascii) (s : string) : bool :=
  match s with
  | EmptyString => true
  | String x s' => (negb (Ascii.eqb c x) && lacks c s')%bool
  end.

(** A text without the characters the exports look for. *)
Definition plain (s : string) : bool :=
  (lacks "&" s && lacks "|" s && lacks "t" s && lacks "f" s
   && lacks "!" s)%bool.

End Texts.
Import Texts.

(** ** Facts about objects *)

Section ObjectFacts.

Context {V : Type}.
Implicit Types (o : obj V) (k : key) (v : V).

Lemma obj_get_none_iff k o : obj_get k o = None <-> ~ In k (keys o).
Proof.
  induction o as [|[k' v'] o IH]; simpl.
  - tauto.
  - destruct (String.eqb_spec k k') as [->|Hne].
    + split; [discriminate | intros H; exfalso; apply H; now left].
    + rewrite IH. split.
      * intros H [E|E]; [congruence | tauto].
      * tauto.
Qed.

Lemma obj_mem_true_iff k o : obj_mem k o = true <-> In k (keys o).
Proof.
  unfold obj_mem. destruct (obj_get k o) eqn:E.
  - split; [intros _ | reflexivity].
    destruct (in_dec string_dec k (keys o)) as [H|H]; [exact H|].
    apply obj_get_none_iff in H. congruence.
  - apply obj_get_none_iff in E. split; [discriminate | tauto].
Qed.

Lemma obj_mem_false_iff k o : obj_mem k o = false <-> ~ In k (keys o).
Proof.
  rewrite <- obj_mem_true_iff. destruct (obj_mem k o); split; congruence.
Qed.

Lemma keys_replace k v o : keys (obj_replace k v o) = keys o.
Proof.
  induction o as [|[k' v'] o IH]; simpl; [reflexivity|].
  destruct (String.eqb k k'); simpl; [reflexivity | now rewrite IH].
Qed.

Lemma obj_get_replace_same k v o :
  In k (keys o) -> obj_get k (obj_replace k v o) = Some v.
Proof.
  induction o as [|[k' v'] o IH]; simpl; [tauto|].
  intros H. destruct (String.eqb_spec k k') as [->|Hne]; simpl.
  - now rewrite String.eqb_refl.
  - destruct (String.eqb_spec k k'); [congruence|].
    apply IH. destruct H; congruence.
Qed.

Lemma obj_get_replace_other k k' v o :
  k' <> k -> obj_get k' (obj_replace k v o) = obj_get k' o.
Proof.
  intros Hne. induction o as [|[k0 v0] o IH]; simpl; [reflexivity|].
  destruct (String.eqb_spec k k0) as [->|Hk]; simpl.
  - destruct (String.eqb_spec k' k0); [congruence | reflexivity].
  - now rewrite IH.
Qed.

Lemma obj_get_app k o o' :
  obj_get k (o ++ o')%list =
  match obj_get k o with Some v => Some v | None => obj_get k o' end.
Proof.
  induction o as [|[k0 v0] o IH]; simpl; [reflexivity|].
  destruct (String.eqb k k0); [reflexivity | exact IH].
Qed.

Lemma obj_get_insert_same n k v o :
  ~ In k (keys o) -> obj_get k (obj_insert_index n k v o) = Some v.
Proof.
  induction o as [|[k0 v0] o IH]; simpl; intros H.
  - now rewrite String.eqb_refl.
  - destruct (array_index k0) as [n'|]; [destruct (N.leb n' n)|]; simpl;
      rewrite ?String.eqb_refl; try reflexivity.
    destruct (String.eqb_spec k k0) as [->|Hne]; [tauto|].
    apply IH. tauto.
Qed.

Lemma obj_get_insert_other n k k' v o :
  k' <> k -> obj_get k' (obj_insert_index n k v o) = obj_get k' o.
Proof.
  intros Hne. induction o as [|[k0 v0] o IH]; simpl.
  - destruct (String.eqb_spec k' k); [congruence | reflexivity].
  - destruct (array_index k0) as [n'|]; [destruct (N.leb n' n)|]; simpl;
      try rewrite IH; try reflexivity;
      destruct (String.eqb_spec k' k); congruence.
Qed.

(** Reading back what was written. *)
Lemma obj_get_set_same k v o : obj_get k (obj_set k v o) = Some v.
Proof.
  unfold obj_set. destruct (obj_mem k o) eqn:E.
  - apply obj_get_replace_same. now apply obj_mem_true_iff.
  - apply obj_mem_false_iff in E. destruct (array_index k).
    + now apply obj_get_insert_same.
    + rewrite obj_get_app. apply obj_get_none_iff in E. rewrite E.
      simpl. now rewrite String.eqb_refl.
Qed.

(** Writing one property leaves the others as they were. *)
Lemma obj_get_set_other k k' v o :
  k' <> k -> obj_get k' (obj_set k v o) = obj_get k' o.
Proof.
  intros Hne. unfold obj_set. destruct (obj_mem k o).
  - now apply obj_get_replace_other.
  - destruct (array_index k).
    + now apply obj_get_insert_other.
    + rewrite obj_get_app. destruct (obj_get k' o); [reflexivity|].
      simpl. destruct (String.eqb_spec k' k); congruence.
Qed.

(** Writing an existing property keeps the enumeration. *)
Lemma keys_set_present k v o :
  In k (keys o) -> keys (obj_set k v o) = keys o.
Proof.
  intros H. unfold obj_set. apply obj_mem_true_iff in H. rewrite H.
  apply keys_replace.
Qed.

Lemma obj_insert_index_last n k v o :
  array_index k = Some n ->
  forallb (fun k' => key_before k' k) (keys o) = true ->
  obj_insert_index n k v o = (o ++ [(k, v)])%list.
Proof.
  intros Hk. induction o as [|[k0 v0] o IH]; simpl; intros H; [reflexivity|].
  apply andb_prop in H. destruct H as [Hb Hrest].
  unfold key_before in Hb. rewrite Hk in Hb.
  destruct (array_index k0) as [n'|]; [|discriminate].
  rewrite Hb. now rewrite IH.
Qed.

(** A new property that comes after all the present ones is
    enumerated last. *)
Lemma obj_set_last k v o :
  ~ In k (keys o) ->
  forallb (fun k' => key_before k' k) (keys o) = true ->
  obj_set k v o = (o ++ [(k, v)])%list.
Proof.
  intros Hnew Hord. unfold obj_set.
  apply obj_mem_false_iff in Hnew. rewrite Hnew.
  destruct (array_index k) eqn:E; [|reflexivity].
  now apply obj_insert_index_last.
Qed.

End ObjectFacts.

(** Keys in enumeration order: a key is new to the ones before it and
    comes after them. *)
Lemma keys_ordered_prefix (pre : list key) (k : key) (rest : list key) :
  keys_ordered (pre ++ k :: rest) = true ->
  ~ In k pre /\ forallb (fun k' => key_before k' k) pre = true.
Proof.
  induction pre as [|a pre IH]; simpl; intros H; [tauto|].
  apply andb_prop in H. destruct H as [H Hrest].
  apply andb_prop in H. destruct H as [Hnew Hord].
  destruct (IH Hrest) as [Hk Hb]. split.
  - intros [E|E]; [subst a | tauto].
    apply negb_true_iff in Hnew.
    assert (Hex : existsb (String.eqb k) (pre ++ k :: rest) = true).
    { apply existsb_exists. exists k. split; [|apply String.eqb_refl].
      apply in_or_app. right. now left. }
    congruence.
  - rewrite Hb, andb_true_r.
    rewrite forallb_forall in Hord. apply Hord.
    apply in_or_app. right. now left.
Qed.

Lemma keys_ordered_nodup (l : list key) : keys_ordered l = true -> NoDup l.
Proof.
  induction l as [|a l IH]; simpl; intros H; [constructor|].
  apply andb_prop in H. destruct H as [H Hrest].
  apply andb_prop in H. destruct H as [Hnew _].
  constructor; [|now apply IH].
  intros Hin. apply negb_true_iff in Hnew.
  assert (Hex : existsb (String.eqb a) l = true).
  { apply existsb_exists. exists a. split; [exact Hin | apply String.eqb_refl]. }
  congruence.
Qed.




(** *** Writing a property keeps an object well formed *)

Lemma in_keys_insert {V} (n : N) (k x : key) (v : V) (o : obj V) :
  In x (keys (obj_insert_index n k v o)) <-> x = k \/ In x (keys o).
Proof.
  induction o as [|[k0 v0] o IH]; simpl.
  - split; [intros [H|[]]; now left | intros [H|[]]; now left].
  - destruct (array_index k0) as [n'|]; [destruct (N.leb n' n)|]; simpl;
      rewrite ?IH; intuition congruence.
Qed.

Lemma existsb_eqb_false (k : key) (l : list key) :
  existsb (String.eqb k) l = false <-> ~ In k l.
Proof.
  split.
  - intros H Hin. assert (E : existsb (String.eqb k) l = true).
    { apply existsb_exists. exists k. split; [exact Hin|apply String.eqb_refl]. }
    congruence.
  - intros H. destruct (existsb (String.eqb k) l) eqn:E; [|reflexivity].
    apply existsb_exists in E. destruct E as [x [Hx E]].
    apply String.eqb_eq in E. now subst.
Qed.

Lemma key_before_trans_index (k k0 x : key) (n n' : N) :
  array_index k = Some n ->
  (array_index k0 = None \/ (array_index k0 = Some n' /\ N.leb n' n = false)) ->
  key_before k0 x = true -> key_before k x = true.
Proof.
  unfold key_before. intros -> H.
  destruct H as [->|[-> Hn]]; destruct (array_index x) as [m|]; try congruence.
  intros Hm. apply N.leb_le in Hm. apply N.leb_gt in Hn. apply N.leb_le. lia.
Qed.

Lemma keys_ordered_insert {V} (n : N) (k : key) (v : V) (o : obj V) :
  array_index k = Some n -> ~ In k (keys o) ->
  keys_ordered (keys o) = true ->
  keys_ordered (keys (obj_insert_index n k v o)) = true.
Proof.
  intros Hk. induction o as [|[k0 v0] o IH]; intros Hnew Hord; [reflexivity|].
  assert (Hord0 : keys_ordered (k0 :: keys o) = true) by exact Hord.
  simpl in Hnew, Hord. apply andb_prop in Hord. destruct Hord as [H Ho].
  apply andb_prop in H. destruct H as [Hk0 Hb0].
  apply negb_true_iff, existsb_eqb_false in Hk0.
  assert (Htail : forall n',
             (array_index k0 = None
              \/ (array_index k0 = Some n' /\ N.leb n' n = false)) ->
             keys_ordered (k :: k0 :: keys o) = true).
  { intros n' Hcase. change (keys_ordered (k :: k0 :: keys o))
      with (negb (existsb (String.eqb k) (k0 :: keys o))
            && forallb (key_before k) (k0 :: keys o)
            && keys_ordered (k0 :: keys o))%bool.
    rewrite Hord0, andb_true_r. apply andb_true_intro. split.
    - apply negb_true_iff, existsb_eqb_false. exact Hnew.
    - simpl. apply andb_true_intro. split.
      + unfold key_before. rewrite Hk.
        destruct Hcase as [->|[-> Hn]]; [reflexivity|].
        apply N.leb_gt in Hn. apply N.leb_le. lia.
      + apply forallb_forall. intros x Hx.
        apply (@key_before_trans_index k k0 x n n' Hk Hcase).
        rewrite forallb_forall in Hb0. now apply Hb0. }
  simpl. destruct (array_index k0) as [n'|] eqn:E0.
  - destruct (N.leb n' n) eqn:Hle.
    + simpl. apply andb_true_intro. split; [apply andb_true_intro; split|].
      * apply negb_true_iff, existsb_eqb_false. rewrite in_keys_insert.
        intros [->|H]; [apply Hnew; now left | contradiction].
      * apply forallb_forall. intros x Hx. apply in_keys_insert in Hx.
        destruct Hx as [->|Hx].
        -- unfold key_before. now rewrite E0, Hk.
        -- rewrite forallb_forall in Hb0. now apply Hb0.
      * apply IH; [|exact Ho]. intros H. apply Hnew. now right.
    + apply (Htail n'). right. now split.
  - apply (Htail 0%N). now left.
Qed.

Lemma keys_ordered_snoc (l : list key) (k : key) :
  array_index k = None -> ~ In k l ->
  keys_ordered l = true -> keys_ordered (l ++ [k]) = true.
Proof.
  intros Hk. induction l as [|a l IH]; intros Hnew Hord; [reflexivity|].
  simpl in *. apply andb_prop in Hord. destruct Hord as [H Hl].
  apply andb_prop in H. destruct H as [Ha Hb].
  apply andb_true_intro. split; [apply andb_true_intro; split|].
  - apply negb_true_iff, existsb_eqb_false.
    apply negb_true_iff, existsb_eqb_false in Ha.
    intros H. apply in_app_or in H. destruct H as [H|[H|[]]];
      [contradiction | apply Hnew; now left].
  - rewrite forallb_app, Hb. simpl. unfold key_before. rewrite Hk.
    now destruct (array_index a).
  - apply IH; [|exact Hl]. intros H. apply Hnew. now right.
Qed.

(** Every write leaves a well-formed object well formed: the objects
    the simulator builds from [{}] are well formed. *)
Lemma obj_set_wf {V} (k : key) (v : V) (o : obj V) :
  obj_wf o -> obj_wf (obj_set k v o).
Proof.
  unfold obj_wf, obj_set. intros Hwf. destruct (obj_mem k o) eqn:E.
  - now rewrite keys_replace.
  - apply obj_mem_false_iff in E. destruct (array_index k) as [n|] eqn:Hk.
    + now apply keys_ordered_insert.
    + unfold keys. rewrite map_app. now apply keys_ordered_snoc.
Qed.

Lemma initialize_state_wf (rs : obj string) (seed : nat -> jsval) :
  forall (c : nat) (st : State),
    obj_wf st -> obj_wf (initialize_state rs seed c st).
Proof.
  induction rs as [|[i text] rs IH]; intros c st Hwf; simpl; [exact Hwf|].
  destruct (Nat.eqb (String.length text) 0); [now apply IH|].
  apply IH. now apply obj_set_wf.
Qed.

(** ** Facts about strings *)

Lemma append_empty_r (s : string) : s ++ "" = s.
Proof. induction s as [|c s IH]; simpl; [reflexivity | now rewrite IH]. Qed.

Lemma append_assoc (a b c : string) : (a ++ b) ++ c = a ++ (b ++ c).
Proof. induction a as [|x a IH]; simpl; [reflexivity | now rewrite IH]. Qed.

Lemma length_append (a b : string) :
  String.length (a ++ b) = String.length a + String.length b.
Proof. induction a as [|x a IH]; simpl; [reflexivity | now rewrite IH]. Qed.

(** ** The state codec *)

Lemma fold_key_text (s : State) (acc : string) :
  fold_left (fun map (p : key * jsval) => map ++ numToString (toNumber (snd p)))
            s acc
  = acc ++ encodeStateMap s.
Proof.
  unfold encodeStateMap. revert acc.
  induction s as [|p s IH]; intros acc; simpl.
  - now rewrite append_empty_r.
  - rewrite IH. rewrite (IH (numToString _)).
    now rewrite append_assoc.
Qed.

(** The key of a state is the text of its first entry followed by the
    key of the other entries. *)
Lemma encode_cons (k : key) (v : jsval) (s : State) :
  encodeStateMap ((k, v) :: s) = key_text v ++ encodeStateMap s.
Proof.
  unfold encodeStateMap at 1. simpl. now rewrite fold_key_text.
Qed.

Lemma key_text_bool (b : bool) :
  key_text (JBool b) = String (if b then "1" else "0")%char "".
Proof. now destruct b. Qed.

Lemma decoded_value_char (p : string) (c : ascii) (rest : string) :
  decoded_value (p ++ String c rest) (String.length p) =
  JBool (numToBoolean (parseInt10 (Some c))).
Proof.
  unfold decoded_value. f_equal. f_equal. f_equal.
  induction p as [|a p IH]; simpl; [reflexivity | exact IH].
Qed.

Lemma append_char_shift (p : string) (c : ascii) (rest : string) :
  p ++ String c rest = (p ++ String c "") ++ rest.
Proof. now rewrite append_assoc. Qed.

Lemma length_append_char (p : string) (c : ascii) :
  String.length (p ++ String c "") = S (String.length p).
Proof. rewrite length_append. simpl. lia. Qed.

(** Decoding the key of a Boolean state, position by position. *)
Lemma decode_entries_encode (s : State) (p : string) :
  boolean_state s = true ->
  decode_entries (keys s) (p ++ encodeStateMap s) (String.length p) = s.
Proof.
  revert p. induction s as [|[k v] s IH]; intros p Hb; simpl; [reflexivity|].
  simpl in Hb. apply andb_prop in Hb. destruct Hb as [Hv Hs].
  destruct v as [b|]; [|discriminate].
  rewrite encode_cons, key_text_bool. simpl.
  rewrite decoded_value_char. f_equal.
  - now destruct b.
  - rewrite append_char_shift, <- length_append_char with (c := if b then "1"%char else "0"%char).
    now apply IH.
Qed.

(** On a well-formed network state, the decoding loop appends the
    entries in the network's order. *)
Lemma decode_loop_entries (pre ids : list key) (map : string) (j : nat)
      (st : State) :
  keys_ordered (pre ++ ids) = true ->
  keys st = pre ->
  decode_loop ids map j st = (st ++ decode_entries ids map j)%list.
Proof.
  revert pre j st. induction ids as [|i ids IH]; intros pre j st Hord Hk; simpl.
  - now rewrite app_nil_r.
  - destruct (keys_ordered_prefix _ _ _ Hord) as [Hnew Hb].
    rewrite obj_set_last by (rewrite Hk; assumption).
    rewrite (IH (pre ++ [i])%list).
    + now rewrite <- app_assoc.
    + now rewrite <- app_assoc.
    + unfold keys in *. rewrite map_app, Hk. reflexivity.
Qed.

Lemma decodeStateMap_entries (net_state : State) (map : string) :
  obj_wf net_state ->
  decodeStateMap net_state map = decode_entries (keys net_state) map 0.
Proof.
  intros Hwf. unfold decodeStateMap.
  now rewrite (@decode_loop_entries [] (keys net_state) map 0 []).
Qed.

(** The key of a Boolean state, character by character. *)
Lemma encode_bits (s : State) :
  boolean_state s = true ->
  encodeStateMap s
  = string_of_list_ascii
      (map (fun p : key * jsval => if truthy (snd p) then "1" else "0")%char s).
Proof.
  induction s as [|[k v] s IH]; intros Hb; [reflexivity|].
  simpl in Hb. apply andb_prop in Hb. destruct Hb as [Hv Hs].
  destruct v as [b|]; [|discriminate].
  rewrite encode_cons, key_text_bool. simpl. now rewrite IH.
Qed.

(** C2.  State codec round trip: for a network state [net_state] (a
    well-formed object) and every full state [s] holding one Boolean
    entry per dynamic node in the network's node order, decoding the
    key of [s] gives [s] back; the key is one character per entry, in
    order, ['1'] for [true] and ['0'] for [false]. *)
Theorem codec_round_trip (net_state s : State) :
  obj_wf net_state ->
  full_state net_state s ->
  boolean_state s = true ->
  decodeStateMap net_state (encodeStateMap s) = s
  /\ encodeStateMap s
     = string_of_list_ascii
         (map (fun p : key * jsval => if truthy (snd p) then "1" else "0")%char s).
Proof.
  intros Hwf Hfull Hb. split.
  - rewrite decodeStateMap_entries by exact Hwf.
    rewrite <- Hfull.
    exact (decode_entries_encode s "" Hb).
  - now apply encode_bits.
Qed.

Lemma codec_round_trip_witness :
  decodeStateMap (negation_state true true)
                 (encodeStateMap (negation_state true false))
  = negation_state true false
  /\ encodeStateMap (negation_state true false) = "10".
Proof.
  apply (@codec_round_trip (negation_state true true)
                           (negation_state true false)); reflexivity.
Defined.

Lemma keys_decode_entries (ids : list key) (map : string) (j : nat) :
  keys (decode_entries ids map j) = ids.
Proof.
  revert j. induction ids as [|i ids IH]; intros j; simpl; [reflexivity|].
  f_equal. apply IH.
Qed.

Lemma obj_get_decode_entries (ids : list key) (map : string) (j p : nat)
      (id : key) :
  NoDup ids -> nth_error ids p = Some id ->
  obj_get id (decode_entries ids map j) = Some (decoded_value map (j + p)).
Proof.
  revert j p. induction ids as [|i ids IH]; intros j p Hnd Hp.
  - destruct p; discriminate.
  - inversion Hnd as [|? ? Hnew Hnd']; subst. destruct p as [|p]; simpl in *.
    + injection Hp as ->. rewrite String.eqb_refl. now rewrite Nat.add_0_r.
    + destruct (String.eqb_spec id i) as [->|Hne].
      * exfalso. apply Hnew. eapply nth_error_In; eauto.
      * rewrite (IH (S j) p Hnd' Hp). f_equal. f_equal. lia.
Qed.

Lemma digit_of_not_digit (c : ascii) : is_digit c = false -> digit_of c = None.
Proof.
  destruct c as [[] [] [] [] [] [] [] []]; vm_compute; congruence.
Qed.

Lemma decoded_value_absent (map : string) (p : nat) :
  String.get p map = None -> decoded_value map p = JBool false.
Proof. unfold decoded_value. now intros ->. Qed.

Lemma decoded_value_not_digit (map : string) (p : nat) (c : ascii) :
  String.get p map = Some c -> is_digit c = false ->
  decoded_value map p = JBool false.
Proof.
  unfold decoded_value. intros -> H. simpl.
  now rewrite (digit_of_not_digit c H).
Qed.

Lemma get_append_left (map extra : string) (p : nat) :
  p < String.length map -> String.get p (map ++ extra) = String.get p map.
Proof.
  revert p. induction map as [|c map IH]; intros p Hp; simpl in *; [lia|].
  destruct p as [|p]; [reflexivity|]. apply IH. lia.
Qed.

Lemma decode_entries_extra (ids : list key) (map extra : string) (j : nat) :
  j + List.length ids <= String.length map ->
  decode_entries ids (map ++ extra) j = decode_entries ids map j.
Proof.
  revert j. induction ids as [|i ids IH]; intros j Hlen; simpl in *; [reflexivity|].
  unfold decoded_value. rewrite get_append_left by lia.
  f_equal. apply IH. lia.
Qed.

(** C10.  Decoding is total and keyed by the network: for every input
    text, [decodeStateMap] returns a state whose keys are exactly the
    dynamic nodes of the network, in their order; the node at position
    [p] gets the Boolean read from character [p], which is [false] when
    that character is absent or is not a digit; characters beyond the
    number of dynamic nodes are ignored. *)
Theorem decode_total (net_state : State) (map : string) :
  obj_wf net_state ->
  keys (decodeStateMap net_state map) = keys net_state
  /\ (forall p id, nth_error (keys net_state) p = Some id ->
        obj_get id (decodeStateMap net_state map) = Some (decoded_value map p))
  /\ (forall p id, nth_error (keys net_state) p = Some id ->
        (String.get p map = None
         \/ exists c, String.get p map = Some c /\ is_digit c = false) ->
        obj_get id (decodeStateMap net_state map) = Some (JBool false))
  /\ (forall extra, List.length (keys net_state) <= String.length map ->
        decodeStateMap net_state (map ++ extra) = decodeStateMap net_state map).
Proof.
  intros Hwf.
  assert (Hnd : NoDup (keys net_state)) by now apply keys_ordered_nodup.
  assert (Hget : forall p id, nth_error (keys net_state) p = Some id ->
            obj_get id (decodeStateMap net_state map) = Some (decoded_value map p)).
  { intros p id Hp. rewrite decodeStateMap_entries by exact Hwf.
    exact (@obj_get_decode_entries _ map 0 p id Hnd Hp). }
  repeat split.
  - rewrite decodeStateMap_entries by exact Hwf. apply keys_decode_entries.
  - exact Hget.
  - intros p id Hp Hc. rewrite (Hget p id Hp). f_equal.
    destruct Hc as [Hnone | [c [Hc Hd]]].
    + now apply decoded_value_absent.
    + now apply decoded_value_not_digit with c.
  - intros extra Hlen. rewrite !decodeStateMap_entries by exact Hwf.
    now apply decode_entries_extra.
Qed.

Lemma decode_total_witness :
  keys (decodeStateMap (negation_state true true) "x") = ["A"; "B"]
  /\ obj_get "A" (decodeStateMap (negation_state true true) "x") = Some (JBool false)
  /\ obj_get "B" (decodeStateMap (negation_state true true) "x") = Some (JBool false).
Proof.
  pose proof (@decode_total (negation_state true true) "x" eq_refl)
    as [Hk [_ [Hf _]]].
  split; [exact Hk|]. split.
  - apply (Hf 0 "A" eq_refl). right. exists "x"%char. split; reflexivity.
  - apply (Hf 1 "B" eq_refl). left. reflexivity.
Defined.

Lemma encode_length (s : State) :
  boolean_state s = true -> String.length (encodeStateMap s) = List.length s.
Proof.
  induction s as [|[k v] s IH]; intros Hb; [reflexivity|].
  simpl in Hb. apply andb_prop in Hb. destruct Hb as [Hv Hs].
  destruct v as [b|]; [|discriminate].
  rewrite encode_cons, key_text_bool. simpl. now rewrite IH.
Qed.

(** C8 (amended).  Encoding a partial state is not an error:
    [encodeStateMap] visits the entries the state has, so for a Boolean
    state it returns a key of one character per entry present; a state
    that lacks the entry of some dynamic node (and has no entry of
    another node) gets a key shorter than the number of dynamic nodes. *)
Theorem encode_partial_state (net_state s : State) :
  boolean_state s = true ->
  NoDup (keys s) ->
  incl (keys s) (keys net_state) ->
  (exists id, In id (keys net_state) /\ obj_get id s = None) ->
  String.length (encodeStateMap s) = List.length s
  /\ String.length (encodeStateMap s) < List.length (keys net_state).
Proof.
  intros Hb Hnd Hincl [id [Hin Hnone]].
  rewrite encode_length by exact Hb. split; [reflexivity|].
  apply obj_get_none_iff in Hnone.
  assert (Hlen : List.length (id :: keys s) <= List.length (keys net_state)).
  { apply NoDup_incl_length.
    - now constructor.
    - intros x [<-|Hx]; [exact Hin | now apply Hincl]. }
  simpl in Hlen. unfold keys in Hlen at 1. rewrite length_map in Hlen. lia.
Qed.

Lemma encode_partial_state_witness :
  String.length (encodeStateMap (constant_state true)) = 1
  /\ String.length (encodeStateMap (constant_state true)) < 2.
Proof.
  apply (@encode_partial_state (negation_state true true) (constant_state true)).
  - reflexivity.
  - repeat constructor. simpl. tauto.
  - intros x [<-|[]]. simpl. tauto.
  - exists "B". split; [simpl; tauto | reflexivity].
Defined.

(** C8, counterexample to the specification's wording: in the network
    of the nodes [A] and [B], the state that holds only [A] has no entry
    for [B], and encoding it returns the key ["1"]. *)
Lemma encode_partial_state_returns :
  In "B" (keys (negation_state true true))
  /\ obj_get "B" (constant_state true) = None
  /\ encodeStateMap (constant_state true) = "1".
Proof.
  split; [simpl; tauto|]. split; reflexivity.
Qed.

(** ** The synchronous update *)

Lemma jsval_eqb_eq (a b : jsval) : jsval_eqb a b = true <-> a = b.
Proof.
  destruct a as [x|], b as [y|]; simpl; split; intros H;
    try discriminate; try reflexivity.
  - apply Bool.eqb_prop in H. now subst.
  - injection H as ->. apply Bool.eqb_reflx.
Qed.

Lemma strict_neq_true (a b : jsval) : strict_neq a b = true <-> a <> b.
Proof.
  unfold strict_neq. rewrite negb_true_iff. split.
  - intros H E. apply jsval_eqb_eq in E. congruence.
  - intros H. destruct (jsval_eqb a b) eqn:E; [|reflexivity].
    apply jsval_eqb_eq in E. contradiction.
Qed.

Lemma strict_neq_false (a b : jsval) : strict_neq a b = false <-> a = b.
Proof.
  unfold strict_neq. rewrite negb_false_iff. apply jsval_eqb_eq.
Qed.

Lemma js_get_set_same (k : key) (v : jsval) (o : State) :
  js_get k (obj_set k v o) = v.
Proof. unfold js_get. now rewrite obj_get_set_same. Qed.

Section SynchronousUpdate.

Variable ruleFunctions : obj RuleFunction.
Variable state : State.

(** The first loop: it pushes exactly the ids whose candidate differs
    from the pre-step value, and leaves in [newState] the value the
    rule function gives on the pre-step state. *)
Lemma candidates_spec (ids : list key) :
  forall newState changed newState' changed',
    candidates ruleFunctions state ids newState changed
    = Ok (newState', changed') ->
    changed' = (changed ++ filter (differs ruleFunctions state) ids)%list
    /\ (forall i f, In i ids -> obj_get i ruleFunctions = Some f ->
          obj_get i newState' = Some (f state))
    /\ (forall i, ~ In i ids -> obj_get i newState' = obj_get i newState).
Proof.
  induction ids as [|i ids IH]; intros newState changed newState' changed' H;
    simpl in H.
  - injection H as <- <-. rewrite app_nil_r.
    split; [reflexivity|]. split; [intros i f []|reflexivity].
  - destruct (obj_get i ruleFunctions) as [f|] eqn:Ef; [|discriminate].
    rewrite js_get_set_same in H.
    apply IH in H. destruct H as [Hch [Hin Hout]].
    assert (Hd : differs ruleFunctions state i
                 = strict_neq (f state) (js_get i state)).
    { unfold differs. now rewrite Ef. }
    repeat split.
    + rewrite Hch. simpl. rewrite Hd.
      destruct (strict_neq (f state) (js_get i state));
        [now rewrite <- app_assoc | reflexivity].
    + intros i' f' [<-|Hi'] Hf'.
      * destruct (in_dec string_dec i ids) as [Hi|Hi]; [now apply Hin|].
        rewrite (Hout i Hi). rewrite obj_get_set_same. congruence.
      * now apply Hin.
    + intros i' Hi'. simpl in Hi'.
      rewrite Hout by tauto. apply obj_get_set_other.
      intros E. apply Hi'. now left.
Qed.

Lemma candidates_total (ids : list key) :
  (forall i, In i ids -> exists f, obj_get i ruleFunctions = Some f) ->
  forall newState changed,
    exists r, candidates ruleFunctions state ids newState changed = Ok r.
Proof.
  induction ids as [|i ids IH]; intros Hrf newState changed; simpl.
  - eexists. reflexivity.
  - destruct (Hrf i (or_introl eq_refl)) as [f ->].
    apply IH. intros i' Hi'. apply Hrf. now right.
Qed.

(** The second loop writes the changed ids and nothing else. *)
Lemma apply_changed_other (newState : State) (changed : list key) :
  forall st id, ~ In id changed ->
    obj_get id (apply_changed newState changed st) = obj_get id st.
Proof.
  induction changed as [|c changed IH]; intros st id Hid; simpl; [reflexivity|].
  rewrite IH by (intros H; apply Hid; now right).
  apply obj_get_set_other. intros E. apply Hid. now left.
Qed.

Lemma apply_changed_same (newState : State) (changed : list key) :
  forall st id, In id changed ->
    obj_get id (apply_changed newState changed st)
    = Some (js_get id newState).
Proof.
  induction changed as [|c changed IH]; intros st id Hid; simpl; [destruct Hid|].
  destruct (in_dec string_dec id changed) as [Hin|Hout]; [now apply IH|].
  rewrite apply_changed_other by exact Hout.
  destruct Hid as [->|Hid]; [apply obj_get_set_same | contradiction].
Qed.

Lemma keys_apply_changed (newState : State) (changed : list key) :
  forall st, incl changed (keys st) ->
    keys (apply_changed newState changed st) = keys st.
Proof.
  induction changed as [|c changed IH]; intros st Hincl; simpl; [reflexivity|].
  assert (Hc : In c (keys st)) by (apply Hincl; now left).
  rewrite IH; [now apply keys_set_present|].
  rewrite keys_set_present by exact Hc.
  intros x Hx. apply Hincl. now right.
Qed.

Variable net_state : State.

(** What one call does, in terms of the pre-step state only. *)
Lemma synchronousUpdate_spec (state' : State) (changed : list key) :
  synchronousUpdate net_state ruleFunctions state = Ok (state', changed) ->
  changed = filter (differs ruleFunctions state) (keys net_state)
  /\ (forall id, In id changed ->
        exists f, obj_get id ruleFunctions = Some f
                  /\ obj_get id state' = Some (f state)
                  /\ f state <> js_get id state)
  /\ (forall id, ~ In id changed -> obj_get id state' = obj_get id state).
Proof.
  unfold synchronousUpdate. intros H.
  destruct (candidates ruleFunctions state (keys net_state) [] [])
    as [[newState ch]| |] eqn:E; try discriminate.
  injection H as <- <-.
  apply candidates_spec in E. destruct E as [Hch [Hin _]]. simpl in Hch.
  repeat split.
  - exact Hch.
  - intros id Hid. assert (Hid' := Hid). rewrite Hch in Hid'.
    apply filter_In in Hid'. destruct Hid' as [Hk Hd].
    unfold differs in Hd.
    destruct (obj_get id ruleFunctions) as [f|] eqn:Ef; [|discriminate].
    exists f. split; [reflexivity|]. split.
    + rewrite apply_changed_same by exact Hid.
      unfold js_get. now rewrite (Hin id f Hk Ef).
    + now apply strict_neq_true.
  - intros id Hid. now apply apply_changed_other.
Qed.

Lemma synchronousUpdate_total :
  (forall i, In i (keys net_state) ->
             exists f, obj_get i ruleFunctions = Some f) ->
  exists state' changed,
    synchronousUpdate net_state ruleFunctions state = Ok (state', changed).
Proof.
  intros Hrf. unfold synchronousUpdate.
  destruct (candidates_total (keys net_state) Hrf [] []) as [[ns ch] ->].
  eauto.
Qed.

(** Every dynamic node ends the step with the value its rule function
    gives on the pre-step state. *)
Lemma synchronousUpdate_value (state' : State) (changed : list key)
      (i : key) (f : RuleFunction) :
  synchronousUpdate net_state ruleFunctions state = Ok (state', changed) ->
  In i (keys net_state) -> obj_get i ruleFunctions = Some f ->
  js_get i state' = f state.
Proof.
  intros H Hi Hf. apply synchronousUpdate_spec in H.
  destruct H as [Hch [Hin Hout]].
  destruct (in_dec string_dec i changed) as [Hc|Hc].
  - destruct (Hin i Hc) as [f' [Hf' [Hv _]]].
    unfold js_get. rewrite Hv. congruence.
  - unfold js_get. rewrite (Hout i Hc). fold (js_get i state).
    destruct (strict_neq (f state) (js_get i state)) eqn:E.
    + exfalso. apply Hc. rewrite Hch. apply filter_In. split; [exact Hi|].
      unfold differs. now rewrite Hf.
    + apply strict_neq_false in E. congruence.
Qed.

(** On a state that has an entry for every dynamic node, the step
    keeps the entries in place. *)
Lemma synchronousUpdate_keys (state' : State) (changed : list key) :
  synchronousUpdate net_state ruleFunctions state = Ok (state', changed) ->
  incl (keys net_state) (keys state) ->
  keys state' = keys state.
Proof.
  intros H Hincl. assert (Hspec := H).
  apply synchronousUpdate_spec in Hspec. destruct Hspec as [Hch _].
  unfold synchronousUpdate in H.
  destruct (candidates ruleFunctions state (keys net_state) [] [])
    as [[newState ch]| |]; try discriminate.
  injection H as <- <-. apply keys_apply_changed.
  intros x Hx. apply Hincl. rewrite Hch in Hx.
  apply filter_In in Hx. tauto.
Qed.

End SynchronousUpdate.

Lemma synchronousUpdate_unchanged (net_state : State)
      (ruleFunctions : obj RuleFunction) (state state' : State) :
  synchronousUpdate net_state ruleFunctions state = Ok (state', []) ->
  state' = state.
Proof.
  unfold synchronousUpdate.
  destruct (candidates ruleFunctions state (keys net_state) [] [])
    as [[newState ch]| |]; try discriminate.
  intros H. injection H as <- ->. reflexivity.
Qed.

Lemma filter_none {A} (f : A -> bool) (l : list A) :
  (forall x, In x l -> f x = false) -> filter f l = [].
Proof.
  induction l as [|a l IH]; intros H; simpl; [reflexivity|].
  rewrite (H a (or_introl eq_refl)). apply IH.
  intros x Hx. apply H. now right.
Qed.

(** C1 (amended).  Synchronicity of the step: in one call of
    [synchronousUpdate] every dynamic node ends with the value its rule
    function gives on the pre-step state, so no rule sees a value
    written in the same step.  In the two-node network [A = !B],
    [B = !A] a step from a state where both nodes hold the same value
    changes both nodes (these states oscillate), while a state where the
    two nodes differ is left unchanged by the step. *)
Theorem step_synchronous :
  (forall (net_state : State) (ruleFunctions : obj RuleFunction) (state : State),
      (forall i, In i (keys net_state) ->
                 exists f, obj_get i ruleFunctions = Some f) ->
      exists state' changed,
        synchronousUpdate net_state ruleFunctions state = Ok (state', changed)
        /\ forall i f, In i (keys net_state) ->
                       obj_get i ruleFunctions = Some f ->
                       js_get i state' = f state)
  /\ (forall a0 b0 b,
         synchronousUpdate (negation_state a0 b0) negation_rules
                           (negation_state b b)
         = Ok (negation_state (negb b) (negb b), ["A"; "B"]))
  /\ (forall a0 b0 b,
         synchronousUpdate (negation_state a0 b0) negation_rules
                           (negation_state b (negb b))
         = Ok (negation_state b (negb b), [])).
Proof.
  split; [|split].
  - intros net_state ruleFunctions state Hrf.
    destruct (synchronousUpdate_total ruleFunctions state net_state Hrf)
      as [state' [changed H]].
    exists state', changed. split; [exact H|].
    intros i f Hi Hf. eapply synchronousUpdate_value; eauto.
  - intros a0 b0 []; reflexivity.
  - intros a0 b0 []; reflexivity.
Qed.

Lemma step_synchronous_witness :
  exists state' changed,
    synchronousUpdate (negation_state true true) negation_rules
                      (negation_state true true) = Ok (state', changed)
    /\ js_get "A" state' = JBool false
    /\ js_get "B" state' = JBool false.
Proof.
  destruct (proj1 step_synchronous (negation_state true true) negation_rules
                  (negation_state true true)) as [state' [changed [H Hv]]].
  - intros i [<-|[<-|[]]]; eexists; reflexivity.
  - exists state', changed. split; [exact H|]. split.
    + apply (Hv "A" (ruleBody (RNot (RVar "B")))); [simpl; tauto | reflexivity].
    + apply (Hv "B" (ruleBody (RNot (RVar "A")))); [simpl; tauto | reflexivity].
Defined.

(** C1, counterexample to the specification's wording: in the two-node
    network where each node is the negation of the other, the state
    [A = true], [B = false] is not changed by a step; the list of
    changed ids is empty. *)
Lemma negation_network_stable :
  synchronousUpdate (negation_state true false) negation_rules
                    (negation_state true false)
  = Ok (negation_state true false, []).
Proof. reflexivity. Qed.

(** C5.  Frame effect of the step: a call of [synchronousUpdate] on a
    network whose dynamic nodes all have a rule function returns; the
    entries whose id is not in the returned list hold their pre-step
    values, every id in the list holds the value of its rule function on
    the pre-step state, which differs from its pre-step value, and the
    list holds exactly the ids whose value changed. *)
Theorem step_frame (net_state : State) (ruleFunctions : obj RuleFunction)
        (state : State) :
  (forall i, In i (keys net_state) ->
             exists f, obj_get i ruleFunctions = Some f) ->
  exists state' changed,
    synchronousUpdate net_state ruleFunctions state = Ok (state', changed)
    /\ (forall id, ~ In id changed -> obj_get id state' = obj_get id state)
    /\ (forall id, In id changed ->
          exists f, obj_get id ruleFunctions = Some f
                    /\ obj_get id state' = Some (f state)
                    /\ f state <> js_get id state)
    /\ (forall id, In id changed <-> js_get id state' <> js_get id state).
Proof.
  intros Hrf.
  destruct (synchronousUpdate_total ruleFunctions state net_state Hrf)
    as [state' [changed H]].
  exists state', changed. split; [exact H|].
  apply synchronousUpdate_spec in H. destruct H as [_ [Hin Hout]].
  split; [exact Hout|]. split; [exact Hin|].
  intros id. split.
  - intros Hid. destruct (Hin id Hid) as [f [_ [Hv Hne]]].
    unfold js_get at 1. now rewrite Hv.
  - intros Hne. destruct (in_dec string_dec id changed) as [Hc|Hc]; [exact Hc|].
    exfalso. apply Hne. unfold js_get. now rewrite (Hout id Hc).
Qed.

Lemma step_frame_witness :
  exists state' changed,
    synchronousUpdate (negation_state true true) negation_rules
                      (negation_state false false) = Ok (state', changed)
    /\ (In "A" changed <-> js_get "A" state' <> JBool false).
Proof.
  destruct (@step_frame (negation_state true true) negation_rules
                        (negation_state false false))
    as [state' [changed [H [_ [_ Hiff]]]]].
  - intros i [<-|[<-|[]]]; eexists; reflexivity.
  - exists state', changed. split; [exact H | exact (Hiff "A")].
Defined.

(** C6.  Fixed-point detection: when the rule function of every dynamic
    node gives the value the node holds, [synchronousUpdate] returns an
    empty list of changed ids and leaves the state as it is; and
    whenever a call returns an empty list, the state after the call is
    the state before it. *)
Theorem fixed_point_detection :
  (forall (net_state : State) (ruleFunctions : obj RuleFunction) (state : State),
      (forall i, In i (keys net_state) ->
                 exists f, obj_get i ruleFunctions = Some f
                           /\ f state = js_get i state) ->
      synchronousUpdate net_state ruleFunctions state = Ok (state, []))
  /\ (forall (net_state : State) (ruleFunctions : obj RuleFunction)
             (state state' : State),
         synchronousUpdate net_state ruleFunctions state = Ok (state', []) ->
         state' = state
         /\ synchronousUpdate net_state ruleFunctions state' = Ok (state', [])).
Proof.
  split.
  - intros net_state ruleFunctions state Hown.
    destruct (synchronousUpdate_total ruleFunctions state net_state)
      as [state' [changed H]].
    { intros i Hi. destruct (Hown i Hi) as [f [Hf _]]. eauto. }
    assert (Hch : changed = []).
    { apply synchronousUpdate_spec in H. destruct H as [-> _].
      apply filter_none. intros i Hi.
      destruct (Hown i Hi) as [f [Hf Hv]]. unfold differs. rewrite Hf.
      now apply strict_neq_false. }
    subst changed. now rewrite <- (synchronousUpdate_unchanged _ _ _ H) at 2.
  - intros net_state ruleFunctions state state' H.
    assert (E := synchronousUpdate_unchanged _ _ _ H). subst state'.
    split; [reflexivity | exact H].
Qed.

Lemma fixed_point_detection_witness :
  synchronousUpdate (constant_state true) constant_rules (constant_state true)
  = Ok (constant_state true, [])
  /\ (negation_state true false = negation_state true false
      /\ synchronousUpdate (negation_state true true) negation_rules
                           (negation_state true false)
         = Ok (negation_state true false, [])).
Proof.
  split.
  - apply (proj1 fixed_point_detection).
    intros i [<-|[]]. eexists. split; reflexivity.
  - apply (proj2 fixed_point_detection (negation_state true true)
                 negation_rules (negation_state true false)).
    reflexivity.
Defined.

(** ** The exports *)

(** C7.  Export operator translation, evaluated on the rule text
    [A && !B || true]: the R BoolNet export writes the line
    [X, A & !B | TRUE]; the Python BooleanNet export writes
    [X* = A and notB or True], the replacement of [!] being [not]
    without a following space, and not [A and not B or True]. *)
Theorem export_operators :
  exportRBoolNet export_rules
  = "targets, factors" ++ newline ++ "X, A & !B | TRUE" ++ newline
  /\ exportPythonBooleanNet export_rules
     = "X* = A and notB or True" ++ newline
  /\ booleannet_rule "A && !B || true" <> "A and not B or True".
Proof.
  split; [reflexivity|]. split; [reflexivity | discriminate].
Qed.

(** ** The attractor search *)

Lemma indexOf_none (x : string) (a : list string) :
  indexOf x a = None <-> ~ In x a.
Proof.
  induction a as [|y a IH]; simpl; [tauto|].
  destruct (String.eqb_spec x y) as [->|Hne].
  - split; [discriminate | intros H; exfalso; apply H; now left].
  - destruct (indexOf x a).
    + split; [discriminate|]. intros H. exfalso. apply H. right.
      destruct (in_dec string_dec x a) as [Hin|Hout]; [exact Hin|].
      apply IH in Hout. discriminate.
    + split; [|reflexivity]. intros _ [E|E]; [congruence|].
      now apply (proj1 IH).
Qed.

(** [indexOf] finds the first occurrence and [slice] cuts there. *)
Lemma indexOf_some (x : string) (a : list string) (idx : nat) :
  indexOf x a = Some idx ->
  exists pre post, a = (pre ++ x :: post)%list /\ ~ In x pre
                   /\ slice idx a = x :: post.
Proof.
  revert idx. induction a as [|y a IH]; intros idx H; simpl in H; [discriminate|].
  destruct (String.eqb_spec x y) as [->|Hne].
  - injection H as <-. exists [], a. repeat split. intros [].
  - destruct (indexOf x a) as [i|]; [|discriminate]. injection H as <-.
    destruct (IH i eq_refl) as [pre [post [Ha [Hpre Hs]]]].
    exists (y :: pre), post. repeat split.
    + simpl. now rewrite Ha.
    + intros [E|E]; [congruence | contradiction].
    + exact Hs.
Qed.

Lemma records_indexOf (attractors : list (list string))
      (visited : list string) (k : string) :
  records attractors visited k
    match indexOf k visited with
    | Some idx => (attractors ++ [slice idx visited])%list
    | None => attractors
    end.
Proof.
  destruct (indexOf k visited) as [idx|] eqn:E.
  - right. destruct (indexOf_some _ _ E) as [pre [post [Ha [Hpre Hs]]]].
    exists pre, post. rewrite Hs. tauto.
  - left. split; [now apply indexOf_none | reflexivity].
Qed.

Lemma has_node_connect (doc : Document) (prev map k : string) :
  has_node (connect doc prev map) k = has_node doc k.
Proof.
  unfold connect. now destruct (Nat.ltb 0 (String.length prev)).
Qed.

Lemma has_node_createNode (doc : Document) (map k : string) :
  has_node (createNode doc map) k = (has_node doc k || String.eqb k map)%bool.
Proof.
  unfold has_node, createNode. simpl. rewrite existsb_app. simpl.
  now rewrite orb_false_r.
Qed.

Lemma has_node_true (doc : Document) (k : string) :
  has_node doc k = true <-> In k (doc_nodes doc).
Proof.
  unfold has_node. rewrite existsb_exists. split.
  - intros [x [Hx E]]. apply String.eqb_eq in E. now subst.
  - intros H. exists k. split; [exact H | apply String.eqb_refl].
Qed.

Lemma has_node_false (doc : Document) (k : string) :
  has_node doc k = false <-> ~ In k (doc_nodes doc).
Proof.
  rewrite <- has_node_true. destruct (has_node doc k); split; congruence.
Qed.

(** One iteration more never changes a trajectory that has ended. *)
Lemma trajectory_more_fuel (net_state : State)
      (ruleFunctions : obj RuleFunction) (fuel extra : nat) :
  forall doc attractors currStates prev state j r,
    trajectory fuel net_state ruleFunctions doc attractors currStates prev
               state j = Ok r ->
    trajectory (fuel + extra) net_state ruleFunctions doc attractors
               currStates prev state j = Ok r.
Proof.
  induction fuel as [|fuel IH]; intros doc attractors currStates prev state j r H;
    simpl in *; [discriminate|].
  destruct (has_node doc (encodeStateMap state)); [exact H|].
  destruct (synchronousUpdate net_state ruleFunctions state)
    as [[state' ch]| |]; try discriminate.
  now apply IH.
Qed.

Lemma trajectory_exit (net_state : State) (ruleFunctions : obj RuleFunction)
      (fuel : nat) :
  forall doc attractors currStates prev state j r,
    trajectory fuel net_state ruleFunctions doc attractors currStates prev
               state j = Ok r ->
    has_node (t_doc r) (encodeStateMap (t_state r)) = true
    /\ (exists visited, t_currStates r = (currStates ++ visited)%list)
    /\ records attractors (t_currStates r) (encodeStateMap (t_state r))
               (t_attractors r).
Proof.
  induction fuel as [|fuel IH]; intros doc attractors currStates prev state j r H;
    simpl in H; [discriminate|].
  destruct (has_node doc (encodeStateMap state)) eqn:Hn.
  - injection H as <-. simpl. rewrite has_node_connect.
    split; [exact Hn|]. split; [exists []; now rewrite app_nil_r|].
    apply records_indexOf.
  - destruct (synchronousUpdate net_state ruleFunctions state)
      as [[state' ch]| |]; try discriminate.
    apply IH in H. destruct H as [Hnode [[visited Hv] Hrec]].
    split; [exact Hnode|]. split; [|exact Hrec].
    exists (encodeStateMap state :: visited). rewrite Hv.
    now rewrite <- app_assoc.
Qed.

Lemma trajectory_unfold (fuel : nat) (net_state : State)
      (ruleFunctions : obj RuleFunction) (doc : Document)
      (attractors : list (list string)) (currStates : list string)
      (prev : string) (state : State) (j : nat) :
  trajectory (S fuel) net_state ruleFunctions doc attractors currStates prev
             state j
  = if has_node doc (encodeStateMap state) then
      Ok {| t_doc := connect doc prev (encodeStateMap state);
            t_attractors :=
              match indexOf (encodeStateMap state) currStates with
              | Some idx => (attractors ++ [slice idx currStates])%list
              | None => attractors
              end;
            t_currStates := currStates;
            t_state := state;
            t_j := j |}
    else
      match synchronousUpdate net_state ruleFunctions state with
      | Ok (state', _) =>
          trajectory fuel net_state ruleFunctions
                     (connect (createNode doc (encodeStateMap state)) prev
                              (encodeStateMap state))
                     attractors (currStates ++ [encodeStateMap state])%list
                     (encodeStateMap state) state' (S j)
      | TypeError => TypeError
      | OutOfFuel => OutOfFuel
      end.
Proof. reflexivity. Qed.

Lemma search_from_cons (fuel : nat) (net_state : State)
      (ruleFunctions : obj RuleFunction) (st : State) (rest : list State)
      (doc : Document) (attractors : list (list string)) :
  search_from fuel net_state ruleFunctions (st :: rest) doc attractors
  = match trajectory fuel net_state ruleFunctions doc attractors [] "" st 0 with
    | Ok r =>
        search_from fuel net_state ruleFunctions rest (t_doc r) (t_attractors r)
    | TypeError => TypeError
    | OutOfFuel => OutOfFuel
    end.
Proof. reflexivity. Qed.

(** C3.  Trajectory rule of the attractor search.  When the key of the
    current state is already a node of the transition graph, the
    trajectory loop ends in that iteration, with the state, the visited
    list and the counter as they are, whether or not the key is in the
    visited list.  Whenever a trajectory loop ends, the key it ends on is
    a node of the graph, and the attractor list has grown by one
    attractor exactly when that key is in the visited list of the
    trajectory, the attractor being the part of the visited list from
    the first occurrence of the key to the end; otherwise the attractor
    list is as it was.  An initial state whose key is already a node is
    passed over: the search goes on with the next initial state, the
    graph and the attractor list unchanged. *)
Theorem trajectory_rule (net_state : State) (ruleFunctions : obj RuleFunction)
        (doc : Document) (attractors : list (list string))
        (currStates : list string) (prev : string) (state : State) (j : nat) :
  (forall fuel,
      has_node doc (encodeStateMap state) = true ->
      exists r,
        trajectory (S fuel) net_state ruleFunctions doc attractors currStates
                   prev state j = Ok r
        /\ t_state r = state /\ t_currStates r = currStates /\ t_j r = j
        /\ records attractors currStates (encodeStateMap state)
                   (t_attractors r))
  /\ (forall fuel r,
         trajectory fuel net_state ruleFunctions doc attractors currStates
                    prev state j = Ok r ->
         has_node (t_doc r) (encodeStateMap (t_state r)) = true
         /\ records attractors (t_currStates r) (encodeStateMap (t_state r))
                    (t_attractors r))
  /\ (forall fuel rest,
         has_node doc (encodeStateMap state) = true ->
         search_from (S fuel) net_state ruleFunctions (state :: rest) doc
                     attractors
         = search_from (S fuel) net_state ruleFunctions rest doc attractors).
Proof.
  split; [|split].
  - intros fuel Hn. simpl. rewrite Hn. eexists. split; [reflexivity|]. simpl.
    repeat split. apply records_indexOf.
  - intros fuel r H. apply trajectory_exit in H. tauto.
  - intros fuel rest Hn. rewrite search_from_cons, trajectory_unfold, Hn.
    reflexivity.
Qed.

Lemma trajectory_rule_witness :
  (exists r,
      trajectory 1 (constant_state true) constant_rules
                 (createNode new_document "1") [] ["0"] "0"
                 (constant_state true) 1 = Ok r
      /\ t_state r = constant_state true /\ t_currStates r = ["0"] /\ t_j r = 1
      /\ records [] ["0"] "1" (t_attractors r))
  /\ records [] ["0"; "1"] "1" [["1"]]
  /\ search_from 1 (constant_state true) constant_rules
                 [constant_state true; constant_state true]
                 (createNode new_document "1") []
     = search_from 1 (constant_state true) constant_rules
                   [constant_state true] (createNode new_document "1") [].
Proof.
  split; [|split].
  - apply (proj1 (@trajectory_rule (constant_state true) constant_rules
                    (createNode new_document "1") [] ["0"] "0"
                    (constant_state true) 1) 0).
    reflexivity.
  - exact (proj2 (proj1 (proj2 (@trajectory_rule (constant_state true)
                    constant_rules new_document [] [] ""
                    (constant_state false) 0)) 3 _ eq_refl)).
  - apply (proj2 (proj2 (@trajectory_rule (constant_state true) constant_rules
                    (createNode new_document "1") [] [] ""
                    (constant_state true) 0)) 0).
    reflexivity.
Defined.

(** *** Boolean states stay Boolean *)

Lemma boolean_state_app (a b : State) :
  boolean_state (a ++ b)%list = (boolean_state a && boolean_state b)%bool.
Proof. apply forallb_app. Qed.

Lemma boolean_state_replace (k : key) (v : jsval) (o : State) :
  is_bool v = true -> boolean_state o = true ->
  boolean_state (obj_replace k v o) = true.
Proof.
  intros Hv. induction o as [|[k0 v0] o IH]; simpl; intros H; [reflexivity|].
  apply andb_prop in H. destruct H as [H0 Ho].
  destruct (String.eqb k k0); simpl.
  - now rewrite Hv, Ho.
  - now rewrite H0, IH.
Qed.

Lemma boolean_state_insert (n : N) (k : key) (v : jsval) (o : State) :
  is_bool v = true -> boolean_state o = true ->
  boolean_state (obj_insert_index n k v o) = true.
Proof.
  intros Hv. induction o as [|[k0 v0] o IH]; simpl; intros H.
  - now rewrite Hv.
  - assert (H' := H). apply andb_prop in H'. destruct H' as [H0 Ho].
    destruct (array_index k0) as [n'|]; [destruct (N.leb n' n)|]; simpl;
      rewrite ?Hv, ?H0, ?Ho, ?IH; auto.
Qed.

Lemma boolean_state_set (k : key) (v : jsval) (o : State) :
  is_bool v = true -> boolean_state o = true ->
  boolean_state (obj_set k v o) = true.
Proof.
  intros Hv Ho. unfold obj_set. destruct (obj_mem k o).
  - now apply boolean_state_replace.
  - destruct (array_index k).
    + now apply boolean_state_insert.
    + rewrite boolean_state_app, Ho. simpl. now rewrite Hv.
Qed.

Lemma boolean_state_apply_changed (newState : State) (changed : list key) :
  (forall id, In id changed -> is_bool (js_get id newState) = true) ->
  forall st, boolean_state st = true ->
             boolean_state (apply_changed newState changed st) = true.
Proof.
  induction changed as [|c changed IH]; intros Hv st Hst; simpl; [exact Hst|].
  apply IH.
  - intros id Hid. apply Hv. now right.
  - apply boolean_state_set; [|exact Hst]. apply Hv. now left.
Qed.

(** A step of a network with Boolean rules takes a full Boolean state
    to a full Boolean state. *)
Lemma step_full_boolean (net_state : State) (ruleFunctions : obj RuleFunction)
      (st : State) :
  boolean_rules net_state ruleFunctions ->
  full_state net_state st -> boolean_state st = true ->
  exists st' changed,
    synchronousUpdate net_state ruleFunctions st = Ok (st', changed)
    /\ full_state net_state st' /\ boolean_state st' = true.
Proof.
  intros Hrules Hfull Hb.
  destruct (synchronousUpdate_total ruleFunctions st net_state)
    as [st' [changed H]].
  { intros i Hi. destruct (Hrules i Hi) as [f [Hf _]]. eauto. }
  exists st', changed. split; [exact H|]. split.
  - unfold full_state. rewrite <- Hfull.
    eapply synchronousUpdate_keys; [exact H|].
    rewrite Hfull. apply incl_refl.
  - assert (Hspec := H). apply synchronousUpdate_spec in Hspec.
    destruct Hspec as [Hch _].
    unfold synchronousUpdate in H.
    destruct (candidates ruleFunctions st (keys net_state) [] [])
      as [[newState ch]| |] eqn:E; try discriminate.
    injection H as <- <-.
    apply candidates_spec in E. destruct E as [_ [Hin _]].
    apply boolean_state_apply_changed; [|exact Hb].
    intros id Hid. rewrite Hch in Hid. apply filter_In in Hid.
    destruct Hid as [Hk _]. destruct (Hrules id Hk) as [f [Hf Hbool]].
    unfold js_get. rewrite (Hin id f Hk Hf). now apply Hbool.
Qed.

Lemma boolean_state_get (s : State) (id : key) :
  boolean_state s = true -> In id (keys s) -> is_bool (js_get id s) = true.
Proof.
  unfold js_get. induction s as [|[k v] s IH]; simpl; intros Hb Hin; [tauto|].
  apply andb_prop in Hb. destruct Hb as [Hv Hs].
  destruct (String.eqb_spec id k) as [->|Hne]; [exact Hv|].
  apply IH; [exact Hs|]. destruct Hin; congruence.
Qed.

(** A rule that reads dynamic nodes only gives a Boolean on every full
    Boolean state. *)
Lemma ruleBody_boolean (net_state : State) (e : rexpr) (s : State) :
  incl (rule_ids e) (keys net_state) ->
  full_state net_state s -> boolean_state s = true ->
  is_bool (ruleBody e s) = true.
Proof.
  intros Hids Hfull Hb. induction e as [| |id|a IHa|a IHa b IHb|a IHa b IHb];
    simpl in *; try reflexivity.
  - apply boolean_state_get; [exact Hb|]. rewrite Hfull. apply Hids. now left.
  - assert (Ha : is_bool (ruleBody a s) = true)
      by (apply IHa; intros x Hx; apply Hids, in_or_app; now left).
    destruct (truthy (ruleBody a s)); [|exact Ha].
    apply IHb. intros x Hx. apply Hids, in_or_app. now right.
  - assert (Ha : is_bool (ruleBody a s) = true)
      by (apply IHa; intros x Hx; apply Hids, in_or_app; now left).
    destruct (truthy (ruleBody a s)); [exact Ha|].
    apply IHb. intros x Hx. apply Hids, in_or_app. now right.
Qed.

(** *** The keys of Boolean states *)

Lemma length_bit_keys (n : nat) : List.length (bit_keys n) = 2 ^ n.
Proof.
  induction n as [|n IH]; simpl; [reflexivity|].
  rewrite length_app, !length_map, IH. lia.
Qed.

Lemma encode_bit_key (s : State) :
  boolean_state s = true -> In (encodeStateMap s) (bit_keys (List.length s)).
Proof.
  induction s as [|[k v] s IH]; intros Hb; simpl.
  - now left.
  - simpl in Hb. apply andb_prop in Hb. destruct Hb as [Hv Hs].
    destruct v as [b|]; [|discriminate].
    rewrite encode_cons, key_text_bool. simpl.
    apply in_or_app. destruct b; [right | left]; apply in_map; now apply IH.
Qed.

Lemma full_state_length (net_state s : State) :
  full_state net_state s -> List.length s = List.length (keys net_state).
Proof.
  unfold full_state, keys. intros H. rewrite <- H. now rewrite length_map.
Qed.

(** *** The initial states *)

Lemma random_state_entries (pre ids : list key) (rnd : nat -> bool) (c : nat)
      (st : State) :
  keys_ordered (pre ++ ids) = true -> keys st = pre ->
  random_state ids rnd c st
  = ((st ++ random_entries ids rnd c)%list, c + List.length ids).
Proof.
  revert pre c st. induction ids as [|i ids IH]; intros pre c st Hord Hk; simpl.
  - now rewrite app_nil_r, Nat.add_0_r.
  - destruct (keys_ordered_prefix _ _ _ Hord) as [Hnew Hb].
    rewrite obj_set_last by (rewrite Hk; assumption).
    rewrite (IH (pre ++ [i])%list).
    + rewrite <- app_assoc. simpl. f_equal. lia.
    + now rewrite <- app_assoc.
    + unfold keys in *. rewrite map_app, Hk. reflexivity.
Qed.

Lemma random_entries_full_boolean (ids : list key) (rnd : nat -> bool) (c : nat) :
  keys (random_entries ids rnd c) = ids
  /\ boolean_state (random_entries ids rnd c) = true.
Proof.
  revert c. induction ids as [|i ids IH]; intros c; simpl; [tauto|].
  destruct (IH (S c)) as [Hk Hb]. split; [now rewrite Hk | exact Hb].
Qed.

(** Every initial state is a full Boolean state. *)
Lemma init_states_full_boolean (net_state : State) (rnd : nat -> bool)
      (count : nat) :
  obj_wf net_state ->
  forall c st, In st (init_states count net_state rnd c) ->
               full_state net_state st /\ boolean_state st = true.
Proof.
  intros Hwf. induction count as [|count IH]; intros c st Hin; simpl in Hin.
  - destruct Hin.
  - rewrite (@random_state_entries [] (keys net_state) rnd c []) in Hin
      by (try reflexivity; exact Hwf).
    simpl in Hin. destruct Hin as [<-|Hin].
    + apply random_entries_full_boolean.
    + eapply IH; eauto.
Qed.

(** *** Termination of the trajectory loop *)

Lemma nodup_snoc {A} (l : list A) (x : A) :
  NoDup l -> ~ In x l -> NoDup (l ++ [x]).
Proof.
  induction l as [|a l IH]; intros Hnd Hx; simpl.
  - constructor; [intros [] | constructor].
  - inversion Hnd as [|? ? Ha Hl]; subst. constructor.
    + intros H. apply in_app_or in H. destruct H as [H|[H|[]]].
      * contradiction.
      * apply Hx. now left.
    + apply IH; [exact Hl|]. intros H. apply Hx. now right.
Qed.

Lemma doc_nodes_connect (doc : Document) (prev map : string) :
  doc_nodes (connect doc prev map) = doc_nodes doc.
Proof.
  unfold connect. now destruct (Nat.ltb 0 (String.length prev)).
Qed.

Section Termination.

Variable net_state : State.
Variable ruleFunctions : obj RuleFunction.
Hypothesis rules_boolean : boolean_rules net_state ruleFunctions.

(** Every iteration that does not leave the loop adds a key that was
    not yet visited, and there are [2 ^ n] keys of Boolean states. *)
Lemma trajectory_terminates (fuel : nat) :
  forall doc attractors currStates prev st j,
    full_state net_state st -> boolean_state st = true ->
    NoDup currStates ->
    incl currStates (doc_nodes doc) ->
    incl currStates (bit_keys (List.length (keys net_state))) ->
    2 ^ List.length (keys net_state) + 1 <= List.length currStates + fuel ->
    exists r,
      trajectory fuel net_state ruleFunctions doc attractors currStates
                 prev st j = Ok r
      /\ t_j r + List.length currStates <= j + 2 ^ List.length (keys net_state).
Proof.
  induction fuel as [|fuel IH];
    intros doc attractors currStates prev st j Hfull Hb Hnd Hdoc Hbits Hfuel;
    assert (Hlen : List.length currStates
                   <= 2 ^ List.length (keys net_state))
      by (rewrite <- length_bit_keys; now apply NoDup_incl_length).
  - lia.
  - simpl. destruct (has_node doc (encodeStateMap st)) eqn:Hn.
    + eexists. split; [reflexivity|]. simpl. lia.
    + destruct (step_full_boolean rules_boolean Hfull Hb)
        as [st' [changed [Hstep [Hfull' Hb']]]].
      rewrite Hstep. apply has_node_false in Hn.
      destruct (IH (connect (createNode doc (encodeStateMap st)) prev
                            (encodeStateMap st))
                   attractors (currStates ++ [encodeStateMap st])%list
                   (encodeStateMap st) st' (S j))
        as [r [Hr Hj]]; try assumption.
      * apply nodup_snoc; [exact Hnd|]. intros H. apply Hn. now apply Hdoc.
      * rewrite doc_nodes_connect. simpl. intros x Hx.
        apply in_app_or in Hx. apply in_or_app.
        destruct Hx as [Hx|Hx]; [left; now apply Hdoc | now right].
      * intros x Hx. apply in_app_or in Hx.
        destruct Hx as [Hx|[<-|[]]]; [now apply Hbits|].
        rewrite <- (full_state_length Hfull).
        now apply encode_bit_key.
      * rewrite length_app. simpl. lia.
      * exists r. split; [exact Hr|].
        rewrite length_app in Hj. simpl in Hj. lia.
Qed.

Lemma search_from_terminates (initStates : list State) :
  (forall st, In st initStates ->
              full_state net_state st /\ boolean_state st = true) ->
  forall doc attractors,
    exists doc' attractors',
      search_from (2 ^ List.length (keys net_state) + 1) net_state ruleFunctions initStates doc attractors
      = Ok (doc', attractors').
Proof.
  induction initStates as [|st rest IH]; intros Hall doc attractors; simpl.
  - eauto.
  - destruct (Hall st (or_introl eq_refl)) as [Hfull Hb].
    destruct (@trajectory_terminates (2 ^ List.length (keys net_state) + 1) doc attractors [] "" st 0
                Hfull Hb) as [r [Hr _]].
    + constructor.
    + intros x [].
    + intros x [].
    + simpl. lia.
    + rewrite Hr. apply IH. intros st' Hst'. apply Hall. now right.
Qed.

End Termination.

(** C9 (amended).  The search terminates: for a network of
    [n] dynamic nodes whose rule functions give Booleans on full Boolean
    states (as rules that read dynamic nodes only do), every trajectory
    loop started on a full Boolean state ends within [2 ^ n + 1]
    iterations, whatever the graph holds, since an iteration that does
    not leave the loop adds a new key and there are [2 ^ n] keys; hence
    the search over its thirty initial states ends. *)
Theorem search_terminates (net_state : State) (ruleFunctions : obj RuleFunction) :
  obj_wf net_state ->
  boolean_rules net_state ruleFunctions ->
  (forall doc attractors st,
      full_state net_state st -> boolean_state st = true ->
      exists r,
        trajectory (2 ^ List.length (keys net_state) + 1) net_state ruleFunctions
                   doc attractors [] "" st 0 = Ok r
        /\ t_j r + 1 <= 2 ^ List.length (keys net_state) + 1)
  /\ (forall rnd,
         exists doc attractors,
           search (2 ^ List.length (keys net_state) + 1) net_state ruleFunctions
                  rnd = Ok (doc, attractors)).
Proof.
  intros Hwf Hrules. split.
  - intros doc attractors st Hfull Hb.
    destruct (@trajectory_terminates net_state ruleFunctions Hrules
                (2 ^ List.length (keys net_state) + 1) doc attractors [] "" st 0
                Hfull Hb) as [r [Hr Hj]].
    + constructor.
    + intros x [].
    + intros x [].
    + simpl. lia.
    + exists r. split; [exact Hr|]. simpl in Hj. lia.
  - intros rnd. unfold search. apply search_from_terminates; [exact Hrules|].
    intros st Hst. unfold getInitStates in Hst.
    eapply init_states_full_boolean; eauto.
Qed.

Lemma negation_rules_boolean (a b : bool) :
  boolean_rules (negation_state a b) negation_rules.
Proof.
  intros i [<-|[<-|[]]]; eexists; (split; [reflexivity|]); intros s _ _;
    reflexivity.
Qed.

Lemma search_terminates_witness :
  (exists r,
      trajectory 5 (negation_state true true) negation_rules new_document []
                 [] "" (negation_state true true) 0 = Ok r
      /\ t_j r + 1 <= 5)
  /\ (exists doc attractors,
         search 5 (negation_state true true) negation_rules (fun c => Nat.even c)
         = Ok (doc, attractors)).
Proof.
  destruct (@search_terminates (negation_state true true) negation_rules
              eq_refl (@negation_rules_boolean true true)) as [Ht Hs].
  split.
  - apply (Ht new_document [] (negation_state true true)); reflexivity.
  - apply (Hs (fun c => Nat.even c)).
Defined.

(** C9, counterexample to the specification's wording: the network
    with the one dynamic node [A] and the rule [!!A && X], where [X] has
    no rule and so no entry in the state, started on [A = true], visits
    the keys ["1"], ["NaN"] and ["0"] and leaves the loop in its fourth
    iteration, one more than [2 ^ 1 + 1]. *)
Lemma latch_trajectory_long :
  trajectory (2 ^ 1 + 1) (constant_state true) latch_rules new_document []
             [] "" (constant_state true) 0 = OutOfFuel
  /\ exists r,
       trajectory 4 (constant_state true) latch_rules new_document []
                  [] "" (constant_state true) 0 = Ok r
       /\ t_currStates r = ["1"; "NaN"; "0"]
       /\ t_j r = 3.
Proof.
  split; [reflexivity|]. eexists. split; [reflexivity|]. split; reflexivity.
Qed.

(** *** Fixed points *)

(** States with the same entries in the same places and the same key
    are the same state. *)
Lemma encode_inj (s1 s2 : State) :
  keys s1 = keys s2 -> encodeStateMap s1 = encodeStateMap s2 -> s1 = s2.
Proof.
  revert s2. induction s1 as [|[k1 v1] s1 IH]; intros [|[k2 v2] s2] Hk He;
    try discriminate; [reflexivity|].
  simpl in Hk. injection Hk as -> Hk.
  rewrite !encode_cons in He.
  destruct v1 as [[]|], v2 as [[]|]; simpl in He; try discriminate;
    injection He as He; now rewrite (IH s2 Hk He).
Qed.

Section FixedPoints.

Variable net_state : State.
Variable ruleFunctions : obj RuleFunction.

Lemma advance_add (a b : nat) (s0 : State) :
  advance (a + b) net_state ruleFunctions s0 =
  match advance a net_state ruleFunctions s0 with
  | Ok s1 => advance b net_state ruleFunctions s1
  | TypeError => TypeError
  | OutOfFuel => OutOfFuel
  end.
Proof.
  revert s0. induction a as [|a IH]; intros s0; simpl; [reflexivity|].
  destruct (synchronousUpdate net_state ruleFunctions s0) as [[s1 ch]| |];
    [apply IH | reflexivity | reflexivity].
Qed.

Lemma advance_fixed (m : nat) (s : State) :
  fixed_point net_state ruleFunctions s ->
  advance m net_state ruleFunctions s = Ok s.
Proof.
  intros Hfix. induction m as [|m IH]; simpl; [reflexivity|].
  unfold fixed_point in Hfix. now rewrite Hfix.
Qed.

Lemma advance_full (m : nat) :
  forall s0 s, full_state net_state s0 ->
               advance m net_state ruleFunctions s0 = Ok s ->
               full_state net_state s.
Proof.
  induction m as [|m IH]; intros s0 s Hfull H; simpl in H.
  - now injection H as <-.
  - destruct (synchronousUpdate net_state ruleFunctions s0)
      as [[s1 ch]| |] eqn:E; try discriminate.
    apply (IH s1 s); [|exact H]. unfold full_state. rewrite <- Hfull.
    eapply synchronousUpdate_keys; [exact E|].
    rewrite Hfull. apply incl_refl.
Qed.

(** A state that comes back after [p] steps comes back after every
    multiple of [p] steps. *)
Lemma advance_period (p : nat) (s0 : State) :
  advance p net_state ruleFunctions s0 = Ok s0 ->
  forall t, advance (t * p) net_state ruleFunctions s0 = Ok s0.
Proof.
  intros Hp. induction t as [|t IH]; simpl; [reflexivity|].
  now rewrite advance_add, Hp.
Qed.

(** A state from which a fixed point is reached, and to which the
    trajectory comes back, is that fixed point. *)
Lemma returning_state_fixed (m p : nat) (s0 s : State) :
  advance m net_state ruleFunctions s0 = Ok s ->
  fixed_point net_state ruleFunctions s ->
  advance (S p) net_state ruleFunctions s0 = Ok s0 ->
  s0 = s.
Proof.
  intros Hm Hfix Hp.
  assert (H := @advance_period (S p) s0 Hp m).
  replace (m * S p) with (m + m * p) in H by lia.
  rewrite advance_add, Hm in H. rewrite advance_fixed in H by exact Hfix.
  congruence.
Qed.

Lemma indexOf_snoc (k : string) (cs : list string) :
  ~ In k cs ->
  exists idx, indexOf k (cs ++ [k]) = Some idx
              /\ slice idx (cs ++ [k])%list = [k].
Proof.
  induction cs as [|c cs IH]; intros Hk; simpl.
  - rewrite String.eqb_refl. exists 0. now split.
  - destruct (String.eqb_spec k c) as [->|Hne].
    + exfalso. apply Hk. now left.
    + destruct IH as [idx [Hi Hs]]; [intros H; apply Hk; now right|].
      rewrite Hi. exists (S idx). now split.
Qed.

(** A trajectory standing on a fixed point whose key is new to the
    graph records it in its second iteration. *)
Lemma fixed_point_recorded (s : State) (doc : Document)
      (attractors : list (list string)) (currStates : list string)
      (prev : string) (j : nat) :
  fixed_point net_state ruleFunctions s ->
  incl currStates (doc_nodes doc) ->
  has_node doc (encodeStateMap s) = false ->
  exists r,
    trajectory 2 net_state ruleFunctions doc attractors currStates prev s j
    = Ok r
    /\ t_attractors r = (attractors ++ [[encodeStateMap s]])%list
    /\ t_state r = s.
Proof.
  intros Hfix Hcs Hn. unfold fixed_point in Hfix.
  simpl. rewrite Hn, Hfix.
  rewrite has_node_connect, has_node_createNode, String.eqb_refl, orb_true_r.
  destruct (@indexOf_snoc (encodeStateMap s) currStates) as [idx [Hi Hs]].
  { intros H. apply has_node_false in Hn. apply Hn. now apply Hcs. }
  rewrite Hi, Hs. eexists. split; [reflexivity|]. now split.
Qed.

(** The trajectory of a state from which a fixed point is reached
    through states whose keys are new to the graph records that fixed
    point as an attractor of one element. *)
Lemma fixed_point_reached (s : State) :
  fixed_point net_state ruleFunctions s ->
  forall m s0 doc attractors currStates prev j,
    full_state net_state s0 ->
    advance m net_state ruleFunctions s0 = Ok s ->
    incl currStates (doc_nodes doc) ->
    (forall i si, i <= m -> advance i net_state ruleFunctions s0 = Ok si ->
                  has_node doc (encodeStateMap si) = false) ->
    exists fuel r,
      trajectory fuel net_state ruleFunctions doc attractors currStates
                 prev s0 j = Ok r
      /\ t_attractors r = (attractors ++ [[encodeStateMap s]])%list
      /\ t_state r = s.
Proof.
  intros Hfix. induction m as [|m IH];
    intros s0 doc attractors currStates prev j Hfull Hadv Hcs Hfresh.
  - simpl in Hadv. injection Hadv as ->. exists 2.
    apply fixed_point_recorded; try assumption.
    apply (Hfresh 0 s); [lia | reflexivity].
  - assert (Hn0 : has_node doc (encodeStateMap s0) = false)
      by (apply (Hfresh 0 s0); [lia | reflexivity]).
    assert (Hadv' := Hadv). simpl in Hadv'.
    destruct (synchronousUpdate net_state ruleFunctions s0)
      as [[s1 ch]| |] eqn:Hstep; try discriminate.
    destruct ch as [|c ch].
    + (* [s0] is itself the fixed point *)
      assert (E := synchronousUpdate_unchanged _ _ _ Hstep). subst s1.
      assert (Hs : s0 = s).
      { rewrite advance_fixed in Hadv by exact Hstep. congruence. }
      subst s0. exists 2. now apply fixed_point_recorded.
    + assert (Hfull1 : full_state net_state s1)
        by (apply (@advance_full 1 s0 s1 Hfull); simpl; now rewrite Hstep).
      destruct (IH s1 (connect (createNode doc (encodeStateMap s0)) prev
                               (encodeStateMap s0))
                   attractors (currStates ++ [encodeStateMap s0])%list
                   (encodeStateMap s0) (S j) Hfull1 Hadv')
        as [fuel [r Hr]].
      * rewrite doc_nodes_connect. simpl. intros x Hx.
        apply in_app_or in Hx. apply in_or_app.
        destruct Hx as [Hx|Hx]; [left; now apply Hcs | now right].
      * intros i si Hi Hsi.
        assert (Hsi' : advance (S i) net_state ruleFunctions s0 = Ok si)
          by (simpl; now rewrite Hstep).
        rewrite has_node_connect, has_node_createNode.
        rewrite (Hfresh (S i) si) by (try lia; exact Hsi'). simpl.
        apply String.eqb_neq. intros Hkey.
        assert (Hback : si = s0).
        { apply encode_inj; [|exact Hkey].
          rewrite (advance_full _ Hfull Hsi'). now rewrite Hfull. }
        subst si.
        assert (Hs : s0 = s)
          by (eapply returning_state_fixed; eauto).
        subst s0. unfold fixed_point in Hfix. congruence.
      * exists (S fuel), r. simpl. now rewrite Hn0, Hstep.
Qed.

End FixedPoints.

(** *** The network [A = true] *)

Lemma constant_init_states (a : bool) (rnd : nat -> bool) :
  getInitStates (constant_state a) rnd
  = map (fun c => constant_state (rnd c)) (seq 0 30).
Proof. reflexivity. Qed.

Lemma constant_key (b : bool) :
  encodeStateMap (constant_state b) = if b then "1" else "0".
Proof. now destruct b. Qed.

Lemma constant_step (a b : bool) :
  synchronousUpdate (constant_state a) constant_rules (constant_state b)
  = Ok (constant_state true, if b then [] else ["A"]).
Proof. now destruct b. Qed.

(** Once ["1"] is a node of the graph, a trajectory of the network
    [A = true] records nothing. *)
Lemma constant_trajectory_later (a b : bool) (fuel : nat) (doc : Document)
      (attractors : list (list string)) :
  has_node doc "1" = true ->
  exists r,
    trajectory (S (S fuel)) (constant_state a) constant_rules doc attractors
               [] "" (constant_state b) 0 = Ok r
    /\ t_attractors r = attractors
    /\ has_node (t_doc r) "1" = true.
Proof.
  intros H1. rewrite trajectory_unfold, constant_key. destruct b.
  - rewrite H1. eexists. split; [reflexivity|]. simpl. split; [reflexivity|].
    now rewrite has_node_connect.
  - destruct (has_node doc "0") eqn:H0.
    + eexists. split; [reflexivity|]. simpl. split; [reflexivity|].
      now rewrite has_node_connect.
    + rewrite constant_step, trajectory_unfold, constant_key.
      rewrite has_node_connect, has_node_createNode, H1. simpl orb. cbv iota.
      eexists. split; [reflexivity|]. simpl. split; [reflexivity|].
      now rewrite has_node_connect, has_node_connect, has_node_createNode, H1.
Qed.

Lemma constant_search_later (a : bool) (fuel : nat) (l : list State) :
  (forall st, In st l -> exists b, st = constant_state b) ->
  forall doc attractors,
    has_node doc "1" = true ->
    exists doc',
      search_from (S (S fuel)) (constant_state a) constant_rules l doc attractors
      = Ok (doc', attractors).
Proof.
  induction l as [|st l IH]; intros Hall doc attractors H1; cbn [search_from].
  - eauto.
  - destruct (Hall st (or_introl eq_refl)) as [b ->].
    destruct (@constant_trajectory_later a b fuel doc attractors H1)
      as [r [Hr [Hatt Hnode]]].
    rewrite Hr, Hatt.
    apply IH; [|exact Hnode]. intros st Hst. apply Hall. now right.
Qed.

(** The first trajectory of a search on the network [A = true]. *)
Lemma constant_trajectory_first (a b : bool) (fuel : nat) :
  exists r,
    trajectory (S (S (S fuel))) (constant_state a) constant_rules new_document
               [] [] "" (constant_state b) 0 = Ok r
    /\ t_attractors r = [["1"]]
    /\ has_node (t_doc r) "1" = true.
Proof.
  destruct b; eexists; (split; [reflexivity|]); split; reflexivity.
Qed.

Lemma constant_search (a : bool) (rnd : nat -> bool) (fuel : nat) :
  exists doc,
    search (S (S (S fuel))) (constant_state a) constant_rules rnd
    = Ok (doc, [["1"]]).
Proof.
  unfold search. rewrite constant_init_states.
  change (seq 0 30) with (0 :: seq 1 29). rewrite map_cons, search_from_cons.
  destruct (@constant_trajectory_first a (rnd 0) fuel) as [r [Hr [Hatt Hnode]]].
  rewrite Hr, Hatt.
  apply (@constant_search_later a (S fuel)); [|exact Hnode].
  intros st Hst. apply in_map_iff in Hst. destruct Hst as [c [<- _]].
  now exists (rnd c).
Qed.

(** C4.  Fixed points appear as attractors of one element.  When [m]
    steps take an initial state to a state that a step leaves as it is,
    and the keys of the states on the way are not yet nodes of the
    graph, the trajectory loop of that initial state ends and appends to
    the attractor list the attractor made of the key of the fixed point
    alone.  On the network of the one node [A] with the rule [A = true]
    the search records, whatever the initial states, the single
    attractor [["1"]], and the key ["1"] decodes to the state
    [A = true]. *)
Theorem fixed_point_attractor :
  (forall (net_state : State) (ruleFunctions : obj RuleFunction)
          (s0 s : State) (m : nat) (doc : Document)
          (attractors : list (list string)),
      full_state net_state s0 ->
      advance m net_state ruleFunctions s0 = Ok s ->
      fixed_point net_state ruleFunctions s ->
      (forall i si, i <= m -> advance i net_state ruleFunctions s0 = Ok si ->
                    has_node doc (encodeStateMap si) = false) ->
      exists fuel r,
        trajectory fuel net_state ruleFunctions doc attractors [] "" s0 0 = Ok r
        /\ t_attractors r = (attractors ++ [[encodeStateMap s]])%list
        /\ t_state r = s)
  /\ (forall (a : bool) (rnd : nat -> bool) (fuel : nat),
         exists doc,
           search (S (S (S fuel))) (constant_state a) constant_rules rnd
           = Ok (doc, [["1"]]))
  /\ (forall a : bool,
         decodeStateMap (constant_state a) "1" = constant_state true).
Proof.
  split; [|split].
  - intros net_state ruleFunctions s0 s m doc attractors Hfull Hadv Hfix Hfresh.
    apply (@fixed_point_reached net_state ruleFunctions s Hfix m s0 doc
             attractors [] "" 0 Hfull Hadv); [intros x []|exact Hfresh].
  - exact constant_search.
  - reflexivity.
Qed.

Lemma fixed_point_attractor_witness :
  exists fuel r,
    trajectory fuel (constant_state false) constant_rules new_document [] []
               "" (constant_state false) 0 = Ok r
    /\ t_attractors r = [["1"]]
    /\ t_state r = constant_state true.
Proof.
  apply (proj1 fixed_point_attractor (constant_state false) constant_rules
               (constant_state false) (constant_state true) 1 new_document []).
  - reflexivity.
  - reflexivity.
  - reflexivity.
  - intros i si _ _. reflexivity.
Defined.

(** ** Soundness of the transition graph and of the attractors *)

Lemma chained_suffix (R : string -> string -> Prop) (pre l : list string) :
  chained R (pre ++ l) -> chained R l.
Proof.
  induction pre as [|a pre IH]; intros H; [exact H|].
  apply IH. simpl in H. destruct (pre ++ l)%list; [exact I | tauto].
Qed.

Lemma chained_snoc (R : string -> string -> Prop) (l : list string)
      (a b : string) :
  chained R (l ++ [a]) -> R a b -> chained R (l ++ [a; b]).
Proof.
  induction l as [|x l IH]; intros H Hab; simpl in *; [tauto|].
  destruct l as [|y l]; simpl in *; [tauto|].
  destruct H as [Hxy H]. split; [exact Hxy | now apply IH].
Qed.

Lemma last_app_cons (pre : list string) (k : string) (post : list string)
      (d : string) :
  last (pre ++ k :: post) d = last (k :: post) d.
Proof.
  induction pre as [|a pre IH]; [reflexivity|]. rewrite <- IH. simpl.
  destruct (pre ++ k :: post)%list eqn:E; [destruct pre; discriminate|].
  reflexivity.
Qed.

Section GraphSoundness.

Variable net_state : State.
Variable ruleFunctions : obj RuleFunction.

Lemma arcs_valid_createNode (doc : Document) (map : string) :
  arcs_valid net_state ruleFunctions doc ->
  arcs_valid net_state ruleFunctions (createNode doc map).
Proof.
  intros H a Ha. destruct (H a Ha) as [Hs [Ht [Hid Htr]]]. simpl.
  repeat split; try assumption; apply in_or_app; now left.
Qed.

Lemma arcs_valid_connect (doc : Document) (prev map : string) :
  arcs_valid net_state ruleFunctions doc ->
  (0 < String.length prev ->
   In prev (doc_nodes doc) /\ In map (doc_nodes doc)
   /\ transition net_state ruleFunctions prev map) ->
  arcs_valid net_state ruleFunctions (connect doc prev map).
Proof.
  intros H Hnew. unfold connect.
  destruct (Nat.ltb_spec 0 (String.length prev)) as [Hlt|Hge]; [|exact H].
  destruct (Hnew Hlt) as [Hp [Hm Htr]].
  intros a Ha. simpl in Ha. apply in_app_or in Ha.
  destruct Ha as [Ha|[<-|[]]]; [now apply H|]. simpl. tauto.
Qed.

Lemma linked_last (currStates : list string) (prev : string) (state : State) :
  linked net_state ruleFunctions currStates prev state ->
  currStates <> [] ->
  last currStates "" = prev
  /\ In prev currStates
  /\ transition net_state ruleFunctions prev (encodeStateMap state).
Proof.
  intros [[-> _]|[l [s [ch [-> [Hfull [Hk Hstep]]]]]]] Hne; [congruence|].
  split; [apply last_last|]. split; [apply in_or_app; right; now left|].
  exists s, state, ch. tauto.
Qed.

Lemma linked_nonempty_prev (currStates : list string) (prev : string)
      (state : State) :
  linked net_state ruleFunctions currStates prev state ->
  0 < String.length prev -> currStates <> [].
Proof.
  intros [[_ ->]|[l [s [ch [-> _]]]]] Hlen; [simpl in Hlen; lia|].
  now destruct l.
Qed.

(** One trajectory loop keeps the graph and the attractor list sound. *)
Lemma trajectory_sound (fuel : nat) :
  forall doc attractors currStates prev state j r nodes0,
    doc_nodes doc = (nodes0 ++ currStates)%list ->
    NoDup (doc_nodes doc) ->
    arcs_valid net_state ruleFunctions doc ->
    Forall (is_cycle (transition net_state ruleFunctions)) attractors ->
    NoDup (List.concat attractors) ->
    incl (List.concat attractors) nodes0 ->
    full_state net_state state ->
    chained (transition net_state ruleFunctions) currStates ->
    linked net_state ruleFunctions currStates prev state ->
    trajectory fuel net_state ruleFunctions doc attractors currStates prev
               state j = Ok r ->
    graph_sound net_state ruleFunctions (t_doc r) (t_attractors r)
    /\ incl (doc_nodes doc) (doc_nodes (t_doc r)).
Proof.
  induction fuel as [|fuel IH];
    intros doc attractors currStates prev state j r nodes0
           Hnodes Hnd Harcs Hcyc Hndc Hincl Hfull Hchain Hlink H;
    [discriminate|].
  rewrite trajectory_unfold in H.
  destruct (has_node doc (encodeStateMap state)) eqn:Hn.
  - (* the key is a node already *)
    injection H as <-. unfold graph_sound. simpl. rewrite !doc_nodes_connect.
    apply has_node_true in Hn.
    assert (Harcs' : arcs_valid net_state ruleFunctions
                       (connect doc prev (encodeStateMap state))).
    { apply arcs_valid_connect; [exact Harcs|]. intros Hlen.
      destruct (linked_last Hlink (linked_nonempty_prev Hlink Hlen))
        as [_ [Hin Htr]].
      split; [|tauto]. rewrite Hnodes. apply in_or_app. now right. }
    assert (Hincl' : incl (List.concat attractors) (doc_nodes doc)).
    { intros x Hx. rewrite Hnodes. apply in_or_app. left. now apply Hincl. }
    split; [|apply incl_refl].
    destruct (indexOf (encodeStateMap state) currStates) as [idx|] eqn:Hi.
    + destruct (indexOf_some _ _ Hi) as [pre [post [Hcs [Hpre Hs]]]].
      rewrite Hs.
      assert (Hsub : incl (encodeStateMap state :: post) currStates).
      { rewrite Hcs. intros x Hx. apply in_or_app. now right. }
      assert (Hndcs : NoDup currStates)
        by (rewrite Hnodes in Hnd; now apply NoDup_app_remove_l in Hnd).
      assert (Hndc' : NoDup (encodeStateMap state :: post))
        by (rewrite Hcs in Hndcs; now apply NoDup_app_remove_l in Hndcs).
      assert (Hne : currStates <> []) by (rewrite Hcs; now destruct pre).
      destruct (linked_last Hlink Hne) as [Hlast [_ Htr]].
      split; [exact Hnd|]. split; [exact Harcs'|]. split; [|split].
      * apply Forall_app. split; [exact Hcyc|]. constructor; [|constructor].
        split; [discriminate|]. split.
        -- rewrite Hcs in Hchain. now apply chained_suffix in Hchain.
        -- simpl hd.
           replace (last (encodeStateMap state :: post) "") with prev; [exact Htr|].
           rewrite <- Hlast, Hcs. apply last_app_cons.
      * rewrite List.concat_app. simpl. rewrite app_nil_r.
        apply NoDup_app; [exact Hndc | exact Hndc' |].
        intros x Hx Hx'. apply Hincl in Hx. apply Hsub in Hx'.
        rewrite Hnodes in Hnd. clear - Hnd Hx Hx'.
        induction nodes0 as [|a nodes0 IHn]; [destruct Hx|].
        simpl in Hnd. inversion Hnd as [|? ? Ha Hnd']; subst.
        destruct Hx as [->|Hx]; [|now apply IHn].
        apply Ha. apply in_or_app. now right.
      * rewrite List.concat_app. simpl. rewrite app_nil_r. intros x Hx.
        apply in_app_or in Hx. destruct Hx as [Hx|Hx]; [now apply Hincl'|].
        rewrite Hnodes. apply in_or_app. right. now apply Hsub.
    + split; [exact Hnd|]. split; [exact Harcs'|]. now repeat split.
  - (* a new key *)
    destruct (synchronousUpdate net_state ruleFunctions state)
      as [[state' ch]| |] eqn:Hstep; try discriminate.
    apply has_node_false in Hn.
    assert (Htr : transition net_state ruleFunctions (encodeStateMap state)
                             (encodeStateMap state'))
      by (exists state, state', ch; tauto).
    apply (IH _ _ _ _ _ _ _ nodes0) in H.
    + destruct H as [Hsound Hmono]. split; [exact Hsound|].
      intros x Hx. apply Hmono. rewrite doc_nodes_connect. simpl.
      apply in_or_app. now left.
    + rewrite doc_nodes_connect. simpl. rewrite Hnodes. now rewrite app_assoc.
    + rewrite doc_nodes_connect. simpl. now apply nodup_snoc.
    + apply arcs_valid_connect; [now apply arcs_valid_createNode|].
      intros Hlen.
      destruct (linked_last Hlink (linked_nonempty_prev Hlink Hlen))
        as [_ [Hin Htr']].
      simpl. repeat split.
      * apply in_or_app. left. rewrite Hnodes. apply in_or_app. now right.
      * apply in_or_app. right. now left.
      * exact Htr'.
    + exact Hcyc.
    + exact Hndc.
    + exact Hincl.
    + unfold full_state. rewrite <- Hfull.
      eapply synchronousUpdate_keys; [exact Hstep|].
      rewrite Hfull. apply incl_refl.
    + destruct Hlink as [[-> _]|[l [s [ch' [-> [Hfs [Hk Hs]]]]]]]; [exact I|].
      rewrite <- app_assoc. simpl. apply chained_snoc; [exact Hchain|].
      exists s, state, ch'. tauto.
    + right. exists currStates, state, ch. tauto.
Qed.

Lemma search_from_sound (fuel : nat) (initStates : list State) :
  (forall st, In st initStates -> full_state net_state st) ->
  forall doc attractors doc' attractors',
    graph_sound net_state ruleFunctions doc attractors ->
    search_from fuel net_state ruleFunctions initStates doc attractors
    = Ok (doc', attractors') ->
    graph_sound net_state ruleFunctions doc' attractors'.
Proof.
  induction initStates as [|st rest IH];
    intros Hall doc attractors doc' attractors' Hsound H.
  - simpl in H. now injection H as <- <-.
  - rewrite search_from_cons in H.
    destruct (trajectory fuel net_state ruleFunctions doc attractors [] "" st 0)
      as [r| |] eqn:Hr; try discriminate.
    destruct Hsound as [Hnd [Harcs [Hcyc [Hndc Hincl]]]].
    apply (@trajectory_sound fuel doc attractors [] "" st 0 r (doc_nodes doc))
      in Hr; try assumption.
    + apply (IH (fun x Hx => Hall x (or_intror Hx)) _ _ _ _ (proj1 Hr) H).
    + now rewrite app_nil_r.
    + apply Hall. now left.
    + exact I.
    + left. now split.
Qed.

End GraphSoundness.

(** X1.  Soundness of the search.  Whenever [search] returns, no key
    is a node of the document twice; every arc joins two nodes, is named
    [source->target] and stands for one synchronous update of a full
    state; every recorded attractor is a cycle of such updates (each key
    leads to the next and the last back to the first), and no key
    appears twice in the attractor list, within one attractor or in two
    of them, all of them being nodes of the document. *)
Theorem search_sound (fuel : nat) (net_state : State)
        (ruleFunctions : obj RuleFunction) (rnd : nat -> bool)
        (doc : Document) (attractors : list (list string)) :
  obj_wf net_state ->
  search fuel net_state ruleFunctions rnd = Ok (doc, attractors) ->
  graph_sound net_state ruleFunctions doc attractors.
Proof.
  intros Hwf H. unfold search in H.
  apply (@search_from_sound net_state ruleFunctions fuel
           (getInitStates net_state rnd)) in H; [exact H| |].
  - intros st Hst. unfold getInitStates in Hst.
    now apply (init_states_full_boolean _ _ Hwf) in Hst.
  - split; [constructor|]. split; [intros x []|].
    split; [constructor|]. split; [constructor | intros x []].
Qed.

Lemma search_sound_witness :
  exists doc attractors,
    search 5 (negation_state true true) negation_rules
           (fun c => Nat.even (c / 3))
    = Ok (doc, attractors)
    /\ attractors = [["11"; "00"]; ["10"]]
    /\ graph_sound (negation_state true true) negation_rules doc attractors.
Proof.
  eexists. eexists. split; [vm_compute; reflexivity|]. split; [reflexivity|].
  apply (@search_sound 5 (negation_state true true) negation_rules
           (fun c => Nat.even (c / 3))); [reflexivity|].
  vm_compute. reflexivity.
Defined.

(** ** Further properties of the update and of the codec *)





Lemma init_states_nth (net_state : State) (rnd : nat -> bool) (count : nat) :
  obj_wf net_state ->
  forall c i, i < count ->
    nth_error (init_states count net_state rnd c) i
    = Some (random_entries (keys net_state) rnd
                           (c + i * List.length (keys net_state))).
Proof.
  intros Hwf. induction count as [|count IH]; intros c i Hi; [lia|].
  simpl. rewrite (@random_state_entries [] (keys net_state) rnd c [])
    by (try reflexivity; exact Hwf).
  destruct i as [|i]; simpl.
  - now rewrite Nat.add_0_r.
  - rewrite IH by lia. f_equal. f_equal. lia.
Qed.

Lemma length_init_states (net_state : State) (rnd : nat -> bool) (count c : nat) :
  List.length (init_states count net_state rnd c) = count.
Proof.
  revert c. induction count as [|count IH]; intros c; simpl; [reflexivity|].
  destruct (random_state (keys net_state) rnd c []) as [st c'].
  simpl. now rewrite IH.
Qed.

Lemma obj_get_random_entries (ids : list key) (rnd : nat -> bool) (c p : nat)
      (id : key) :
  NoDup ids -> nth_error ids p = Some id ->
  obj_get id (random_entries ids rnd c) = Some (JBool (rnd (c + p))).
Proof.
  revert c p. induction ids as [|i ids IH]; intros c p Hnd Hp.
  - destruct p; discriminate.
  - inversion Hnd as [|? ? Hnew Hnd']; subst. destruct p as [|p]; simpl in *.
    + injection Hp as ->. rewrite String.eqb_refl. now rewrite Nat.add_0_r.
    + destruct (String.eqb_spec id i) as [->|Hne].
      * exfalso. apply Hnew. eapply nth_error_In; eauto.
      * rewrite (IH (S c) p Hnd' Hp). do 3 f_equal. lia.
Qed.

(** X3.  The initial states of the search: [getInitStates] returns 30
    states; the state number [i] has the ids of [network.state] in
    their order, and the id at position [p] holds the Boolean of the
    draw number [i * n + p], [n] being the number of ids. *)
Theorem getInitStates_draws (net_state : State) (rnd : nat -> bool) :
  obj_wf net_state ->
  List.length (getInitStates net_state rnd) = 30
  /\ forall i, i < 30 ->
       exists st,
         nth_error (getInitStates net_state rnd) i = Some st
         /\ keys st = keys net_state
         /\ forall p id, nth_error (keys net_state) p = Some id ->
              obj_get id st
              = Some (JBool (rnd (i * List.length (keys net_state) + p))).
Proof.
  intros Hwf. split; [apply length_init_states|].
  intros i Hi. eexists. split.
  - unfold getInitStates. now apply init_states_nth.
  - split; [apply random_entries_full_boolean|].
    intros p id Hp. apply obj_get_random_entries; [|exact Hp].
    now apply keys_ordered_nodup.
Qed.

Lemma getInitStates_draws_witness :
  exists st,
    nth_error (getInitStates (negation_state true true) Nat.even) 2 = Some st
    /\ keys st = ["A"; "B"]
    /\ obj_get "B" st = Some (JBool (Nat.even 5)).
Proof.
  destruct (proj2 (@getInitStates_draws (negation_state true true) Nat.even
                     eq_refl) 2) as [st [Hst [Hk Hv]]]; [lia|].
  exists st. split; [exact Hst|]. split; [exact Hk|].
  exact (Hv 1 "B" eq_refl).
Defined.

(** X4.  Keys identify states: two states with the ids of
    [network.state] in the network's order have the same key exactly
    when they are the same state, also when entries hold [undefined]. *)
Theorem encode_identifies (net_state s1 s2 : State) :
  full_state net_state s1 -> full_state net_state s2 ->
  (encodeStateMap s1 = encodeStateMap s2 <-> s1 = s2).
Proof.
  intros H1 H2. split; [|now intros ->].
  apply encode_inj. unfold full_state in *. congruence.
Qed.

Lemma encode_identifies_witness :
  encodeStateMap [("A", JUndefined); ("B", JBool true)]
  = encodeStateMap (negation_state false true)
  <-> [("A", JUndefined); ("B", JBool true)] = negation_state false true.
Proof.
  apply (@encode_identifies (negation_state true true)); reflexivity.
Defined.

(** ** The text [makeRuleFunction] compiles *)

Lemma replace_words_run (w : string) :
  forall acc rest,
    all_word_chars w = true ->
    replace_words acc (w ++ rest) = replace_words (acc ++ w) rest.
Proof.
  induction w as [|c w IH]; intros acc rest Hw; simpl.
  - now rewrite append_empty_r.
  - simpl in Hw. apply andb_prop in Hw. destruct Hw as [Hc Hw].
    rewrite Hc, IH by exact Hw. f_equal.
    now rewrite append_assoc.
Qed.

Lemma replace_words_end (acc rest : string) :
  starts_clear rest = true ->
  replace_words acc rest = flush acc ++ replace_words EmptyString rest.
Proof.
  destruct rest as [|c rest]; simpl; intros H.
  - now rewrite append_empty_r.
  - apply negb_true_iff in H. now rewrite H.
Qed.

Lemma replace_words_match (w rest : string) :
  all_word_chars w = true -> starts_clear rest = true ->
  replace_words EmptyString (w ++ rest)
  = flush w ++ replace_words EmptyString rest.
Proof.
  intros Hw Hr. rewrite replace_words_run by exact Hw. simpl.
  now apply replace_words_end.
Qed.

Lemma flush_identifier (id : key) :
  is_identifier id = true ->
  all_word_chars id = true /\ flush id = "state['" ++ id ++ "']".
Proof.
  unfold is_identifier. intros H.
  apply andb_prop in H. destruct H as [H Hf].
  apply andb_prop in H. destruct H as [H Ht].
  apply andb_prop in H. destruct H as [Hne Hw].
  split; [exact Hw|]. destruct id as [|c id]; [discriminate|].
  unfold flush, substitute.
  apply negb_true_iff in Ht. apply negb_true_iff in Hf. now rewrite Ht, Hf.
Qed.

Lemma replace_words_open (x : string) :
  replace_words EmptyString ("(" ++ x) = "(" ++ replace_words EmptyString x.
Proof. reflexivity. Qed.

Lemma replace_words_close (x : string) :
  replace_words EmptyString (")" ++ x) = ")" ++ replace_words EmptyString x.
Proof. reflexivity. Qed.

Lemma replace_words_not (x : string) :
  replace_words EmptyString ("!" ++ x) = "!" ++ replace_words EmptyString x.
Proof. reflexivity. Qed.

Lemma replace_words_and (x : string) :
  replace_words EmptyString (" && " ++ x)
  = " && " ++ replace_words EmptyString x.
Proof. reflexivity. Qed.

Lemma replace_words_or (x : string) :
  replace_words EmptyString (" || " ++ x)
  = " || " ++ replace_words EmptyString x.
Proof. reflexivity. Qed.

Lemma show_rule_rewritten (e : rexpr) :
  (forall id, In id (rule_ids e) -> is_identifier id = true) ->
  forall rest, starts_clear rest = true ->
    replace_words EmptyString (show_rule (fun id => id) e ++ rest)
    = show_rule (fun id => "state['" ++ id ++ "']") e
      ++ replace_words EmptyString rest.
Proof.
  induction e as [| |id|a IHa|a IHa b IHb|a IHa b IHb]; intros Hids rest Hr;
    cbn [show_rule].
  - now rewrite (@replace_words_match "true" rest eq_refl Hr).
  - now rewrite (@replace_words_match "false" rest eq_refl Hr).
  - destruct (flush_identifier id (Hids id (or_introl eq_refl))) as [Hw Hf].
    now rewrite replace_words_match, Hf by assumption.
  - rewrite !append_assoc, replace_words_not. now rewrite IHa.
  - assert (Ha : forall id, In id (rule_ids a) -> is_identifier id = true)
      by (intros id Hid; apply Hids; simpl; apply in_or_app; now left).
    assert (Hb : forall id, In id (rule_ids b) -> is_identifier id = true)
      by (intros id Hid; apply Hids; simpl; apply in_or_app; now right).
    rewrite !append_assoc, replace_words_open.
    rewrite IHa by (try exact Ha; reflexivity). rewrite replace_words_and.
    rewrite IHb by (try exact Hb; reflexivity). now rewrite replace_words_close.
  - assert (Ha : forall id, In id (rule_ids a) -> is_identifier id = true)
      by (intros id Hid; apply Hids; simpl; apply in_or_app; now left).
    assert (Hb : forall id, In id (rule_ids b) -> is_identifier id = true)
      by (intros id Hid; apply Hids; simpl; apply in_or_app; now right).
    rewrite !append_assoc, replace_words_open.
    rewrite IHa by (try exact Ha; reflexivity). rewrite replace_words_or.
    rewrite IHb by (try exact Hb; reflexivity). now rewrite replace_words_close.
Qed.

(** X5.  What [makeRuleFunction] compiles: for the text of a Boolean
    expression over node ids (non-empty runs of letters, digits and
    underscores other than [true] and [false]), the body handed to
    [Function] is [return e';] where [e'] is the same text with every
    id replaced by [state['id']]; the literals, operators, parentheses
    and blanks are kept. *)
Theorem functionBody_printed (e : rexpr) :
  (forall id, In id (rule_ids e) -> is_identifier id = true) ->
  functionBody (show_rule (fun id => id) e)
  = "return " ++ show_rule (fun id => "state['" ++ id ++ "']") e ++ ";".
Proof.
  intros Hids. unfold functionBody, newRule.
  rewrite <- (append_empty_r (show_rule (fun id => id) e)).
  rewrite show_rule_rewritten by (try exact Hids; reflexivity).
  simpl. now rewrite append_empty_r.
Qed.

Lemma functionBody_printed_witness :
  functionBody "(!A && (true || B_2))"
  = "return (!state['A'] && (true || state['B_2']));".
Proof.
  apply (@functionBody_printed
           (RAnd (RNot (RVar "A")) (ROr RTrue (RVar "B_2")))).
  intros id [<-|[<-|[]]]; reflexivity.
Defined.

(** ** [initialize], [updateRule] and [toggleNodeState] *)

Lemma obj_get_entry {V} (o : obj V) (i : key) (v : V) :
  NoDup (keys o) -> In (i, v) o -> obj_get i o = Some v.
Proof.
  induction o as [|[k w] o IH]; simpl; intros Hnd Hin; [destruct Hin|].
  inversion Hnd as [|? ? Hk Hnd']; subst.
  destruct Hin as [E|Hin].
  - injection E as -> ->. now rewrite String.eqb_refl.
  - destruct (String.eqb_spec i k) as [->|Hne]; [|now apply IH].
    exfalso. apply Hk. apply in_map_iff. now exists (k, v).
Qed.

Lemma obj_get_in {V} (o : obj V) (i : key) (v : V) :
  obj_get i o = Some v -> In (i, v) o.
Proof.
  induction o as [|[k w] o IH]; simpl; [discriminate|].
  destruct (String.eqb_spec i k) as [->|Hne].
  - intros E. injection E as ->. now left.
  - intros H. right. now apply IH.
Qed.


Section Initialize.

Variable makeRuleFunction : string -> option RuleFunction.
Variable rules : obj string.



End Initialize.





Lemma obj_replace_unchanged {V} (k : key) (v : V) (o : obj V) :
  obj_get k o = Some v -> obj_replace k v o = o.
Proof.
  induction o as [|[k0 v0] o IH]; simpl; [reflexivity|].
  destruct (String.eqb_spec k k0) as [->|Hne].
  - intros E. now injection E as ->.
  - intros H. now rewrite IH.
Qed.

Lemma obj_replace_twice {V} (k : key) (v w : V) (o : obj V) :
  obj_replace k w (obj_replace k v o) = obj_replace k w o.
Proof.
  induction o as [|[k0 v0] o IH]; simpl; [reflexivity|].
  destruct (String.eqb k k0) eqn:E; simpl; rewrite E; [reflexivity|].
  now rewrite IH.
Qed.

Lemma obj_set_present {V} (k : key) (v : V) (o : obj V) :
  In k (keys o) -> obj_set k v o = obj_replace k v o.
Proof.
  intros H. unfold obj_set. apply obj_mem_true_iff in H. now rewrite H.
Qed.

(** X8.  Clicking a node twice: for a node that holds a Boolean,
    [toggleNodeState] writes its negation, keeps the entries in place
    and leaves every other node as it is, and a second toggle gives the
    state back; a node without entry reads [undefined] and gets the
    entry [true]. *)
Theorem toggleNodeState_twice (id : key) (state : State) :
  (forall b, obj_get id state = Some (JBool b) ->
     obj_get id (toggleNodeState id state) = Some (JBool (negb b))
     /\ keys (toggleNodeState id state) = keys state
     /\ toggleNodeState id (toggleNodeState id state) = state)
  /\ (forall id', id' <> id ->
        obj_get id' (toggleNodeState id state) = obj_get id' state)
  /\ (obj_get id state = None ->
      obj_get id (toggleNodeState id state) = Some (JBool true)).
Proof.
  split; [|split].
  - intros b Hb.
    assert (Hin : In id (keys state)).
    { destruct (in_dec string_dec id (keys state)) as [H|H]; [exact H|].
      apply obj_get_none_iff in H. congruence. }
    assert (Hv : js_get id state = JBool b) by (unfold js_get; now rewrite Hb).
    assert (Ht : obj_get id (toggleNodeState id state) = Some (JBool (negb b))).
    { unfold toggleNodeState. rewrite Hv. apply obj_get_set_same. }
    split; [exact Ht|]. split.
    + unfold toggleNodeState. now apply keys_set_present.
    + unfold toggleNodeState at 1. unfold js_get. rewrite Ht. simpl.
      rewrite negb_involutive. unfold toggleNodeState. rewrite Hv. simpl.
      rewrite !obj_set_present; try exact Hin.
      * rewrite obj_replace_twice. now apply obj_replace_unchanged.
      * rewrite obj_set_present by exact Hin. now rewrite keys_replace.
  - intros id' Hne. unfold toggleNodeState. now apply obj_get_set_other.
  - intros Hn. unfold toggleNodeState, js_get. rewrite Hn. simpl.
    apply obj_get_set_same.
Qed.

Lemma toggleNodeState_twice_witness :
  obj_get "B" (toggleNodeState "B" (negation_state true false))
  = Some (JBool true)
  /\ keys (toggleNodeState "B" (negation_state true false)) = ["A"; "B"]
  /\ toggleNodeState "B" (toggleNodeState "B" (negation_state true false))
     = negation_state true false.
Proof.
  apply (proj1 (toggleNodeState_twice "B" (negation_state true false)) false).
  reflexivity.
Defined.

(** ** Stepping by the remote service *)

Lemma states_equal (s1 s2 : State) :
  keys s1 = keys s2 -> NoDup (keys s1) ->
  (forall k, In k (keys s1) -> obj_get k s1 = obj_get k s2) ->
  s1 = s2.
Proof.
  revert s2. induction s1 as [|[k1 v1] s1 IH]; intros [|[k2 v2] s2] Hk Hnd Hget;
    try discriminate; [reflexivity|].
  simpl in Hk. injection Hk as -> Hk.
  inversion Hnd as [|? ? Hnew Hnd']; subst.
  assert (H0 := Hget k2 (or_introl eq_refl)). simpl in H0.
  rewrite String.eqb_refl in H0. injection H0 as ->.
  f_equal. apply IH; [exact Hk | exact Hnd'|].
  intros k Hin. assert (H := Hget k (or_intror Hin)). simpl in H.
  destruct (String.eqb_spec k k2) as [->|Hne]; [contradiction | exact H].
Qed.

Lemma keys_remote_image (next : RemoteState) :
  keys (remote_image next) = keys next.
Proof.
  unfold remote_image, keys. rewrite map_map. reflexivity.
Qed.

Lemma updateNodeRules_spec (next : RemoteState) :
  forall ruleFunctions,
    NoDup (keys next) ->
    (forall i v, In (i, v) next ->
       obj_get i (updateNodeRules next ruleFunctions)
       = Some (fun _ : State => JBool (numToBoolean v)))
    /\ (forall i, ~ In i (keys next) ->
          obj_get i (updateNodeRules next ruleFunctions)
          = obj_get i ruleFunctions).
Proof.
  induction next as [|[k w] next IH]; intros rf Hnd; simpl.
  - split; [intros i v [] | reflexivity].
  - inversion Hnd as [|? ? Hnew Hnd']; subst.
    destruct (IH (obj_set k (fun _ : State => JBool (numToBoolean w)) rf) Hnd')
      as [Hin Hout].
    split.
    + intros i v [E|Hi]; [|now apply Hin]. injection E as -> ->.
      rewrite Hout by exact Hnew. apply obj_get_set_same.
    + intros i Hi. rewrite Hout by tauto. apply obj_get_set_other.
      intros E. apply Hi. now left.
Qed.

Lemma js_get_remote_image (next : RemoteState) (i : key) (v : jsnum) :
  NoDup (keys next) -> In (i, v) next ->
  js_get i (remote_image next) = JBool (numToBoolean v).
Proof.
  intros Hnd Hin. unfold js_get.
  rewrite (@obj_get_entry _ (remote_image next) i (JBool (numToBoolean v))).
  - reflexivity.
  - now rewrite keys_remote_image.
  - unfold remote_image. apply in_map_iff. now exists (i, v).
Qed.

Section RemoteStepping.

Variable net_state : State.
Hypothesis net_nodup : NoDup (keys net_state).

Lemma pinned_update (next : RemoteState) (ruleFunctions : obj RuleFunction) :
  keys next = keys net_state ->
  pinned net_state (updateNodeRules next ruleFunctions) (remote_image next).
Proof.
  intros Hk k Hin.
  assert (Hnd : NoDup (keys next)) by now rewrite Hk.
  rewrite <- Hk in Hin. unfold keys in Hin. apply in_map_iff in Hin.
  destruct Hin as [[i v] [E Hin]]. simpl in E. subst i.
  exists (fun _ : State => JBool (numToBoolean v)). split.
  - now apply updateNodeRules_spec.
  - intros s. symmetry. now apply js_get_remote_image.
Qed.

Lemma pinned_step (ruleFunctions : obj RuleFunction) (image s : State) :
  pinned net_state ruleFunctions image ->
  keys image = keys net_state -> full_state net_state s ->
  exists changed,
    synchronousUpdate net_state ruleFunctions s = Ok (image, changed).
Proof.
  intros Hpin Hk Hfull.
  destruct (synchronousUpdate_total ruleFunctions s net_state)
    as [s' [changed H]].
  { intros i Hi. destruct (Hpin i Hi) as [f [Hf _]]. eauto. }
  exists changed. rewrite H. do 2 f_equal.
  assert (Hk' : keys s' = keys net_state).
  { rewrite <- Hfull. eapply synchronousUpdate_keys; [exact H|].
    rewrite Hfull. apply incl_refl. }
  apply states_equal.
  - congruence.
  - now rewrite Hk'.
  - intros k Hin. rewrite Hk' in Hin.
    destruct (Hpin k Hin) as [f [Hf Hv]].
    assert (Hval := synchronousUpdate_value _ _ _ _ H Hin Hf).
    rewrite Hv in Hval. unfold js_get in Hval.
    destruct (obj_get k s') as [v1|] eqn:E1.
    + destruct (obj_get k image) as [v2|] eqn:E2; [congruence|].
      exfalso. apply obj_get_none_iff in E2. apply E2. now rewrite Hk.
    + exfalso. apply obj_get_none_iff in E1. apply E1. now rewrite Hk'.
Qed.

End RemoteStepping.

(** X9.  Stepping by the service: once [updateNodeRules] has been
    called with a remote state that has the ids of [network.state], a
    synchronous update takes every full state to the state the remote
    state stands for (each node [true] where the service sent a number
    other than 0), whatever the rule functions were before. *)
Theorem updateNodeRules_step (net_state : State) (next : RemoteState)
        (ruleFunctions : obj RuleFunction) (s : State) :
  NoDup (keys net_state) ->
  keys next = keys net_state ->
  full_state net_state s ->
  exists changed,
    synchronousUpdate net_state (updateNodeRules next ruleFunctions) s
    = Ok (remote_image next, changed).
Proof.
  intros Hnd Hk Hfull. apply pinned_step; try assumption.
  - now apply pinned_update.
  - now rewrite keys_remote_image.
Qed.

Lemma updateNodeRules_step_witness :
  exists changed,
    synchronousUpdate (negation_state true true)
      (updateNodeRules [("A", Num 0); ("B", Num 1)] negation_rules)
      (negation_state true true)
    = Ok (negation_state false true, changed).
Proof.
  apply (@updateNodeRules_step (negation_state true true)
           [("A", Num 0); ("B", Num 1)] negation_rules
           (negation_state true true)).
  - repeat constructor; simpl; intuition discriminate.
  - reflexivity.
  - reflexivity.
Defined.

Lemma trajectory_scopes_unfold (fuel : nat) (net_state : State)
      (statesList : option (list (list RemoteState))) (i : nat)
      (ruleFunctions : obj RuleFunction)
      (doc : Document) (attractors : list (list string))
      (currStates : list string) (prev : string) (state : State) (j : nat) :
  trajectory_scopes (S fuel) net_state statesList i ruleFunctions doc attractors
                    currStates prev state j
  = if has_node doc (encodeStateMap state) then
      Ok ({| t_doc := connect doc prev (encodeStateMap state);
             t_attractors :=
               match indexOf (encodeStateMap state) currStates with
               | Some idx => (attractors ++ [slice idx currStates])%list
               | None => attractors
               end;
             t_currStates := currStates;
             t_state := state;
             t_j := j |}, ruleFunctions)
    else
      match statesList with
      | None => TypeError
      | Some rows =>
          match nth_error rows i with
          | None => TypeError
          | Some row =>
              match synchronousUpdate net_state
                      match nth_error row (S j) with
                      | Some next => updateNodeRules next ruleFunctions
                      | None => ruleFunctions
                      end state with
              | Ok (state', _) =>
                  trajectory_scopes fuel net_state statesList i
                    match nth_error row (S j) with
                    | Some next => updateNodeRules next ruleFunctions
                    | None => ruleFunctions
                    end
                    (connect (createNode doc (encodeStateMap state)) prev
                             (encodeStateMap state))
                    attractors (currStates ++ [encodeStateMap state])%list
                    (encodeStateMap state) state' (S j)
              | TypeError => TypeError
              | OutOfFuel => OutOfFuel
              end
          end
      end.
Proof. reflexivity. Qed.

(** X10.  No answer, no search: when [obj.scopes] is set and the
    request has left [statesList] undefined, [search] throws a
    [TypeError] on its first initial state; it does not fall back on
    the rule functions of the network. *)
Theorem search_scopes_unanswered (fuel : nat) (net_state : State)
        (ruleFunctions : obj RuleFunction) (rnd : nat -> bool) :
  search_scopes (S fuel) net_state None ruleFunctions rnd = TypeError.
Proof.
  unfold search_scopes, getInitStates.
  change (init_states 30 net_state rnd 0)
    with (let (st, c') := random_state (keys net_state) rnd 0 [] in
          st :: init_states 29 net_state rnd c').
  destruct (random_state (keys net_state) rnd 0 []) as [st c'].
  cbn [search_scopes_from]. now rewrite trajectory_scopes_unfold.
Qed.

Section RemoteTrajectory.

Variable net_state : State.
Hypothesis net_nodup : NoDup (keys net_state).
Variable rows : list (list RemoteState).
Variable i : nat.
Variable row : list RemoteState.
Hypothesis row_i : nth_error rows i = Some row.
Hypothesis row_full : forall next, In next row -> keys next = keys net_state.

(** From the second iteration on, the state is the one the service
    sent and the rule functions are pinned to it; when the list of the
    service is used up the state stays, and the next key is a node. *)
Lemma remote_loop (d : nat) :
  forall j next ruleFunctions doc attractors currStates prev,
    j + d = List.length row - 1 ->
    nth_error row j = Some next ->
    pinned net_state ruleFunctions (remote_image next) ->
    exists r ruleFunctions',
      trajectory_scopes (d + 2) net_state (Some rows) i ruleFunctions doc
                        attractors currStates prev (remote_image next) j
      = Ok (r, ruleFunctions')
      /\ t_j r <= List.length row
      /\ exists last, In last row
                      /\ pinned net_state ruleFunctions' (remote_image last).
Proof.
  induction d as [|d IH];
    intros j next rf doc attractors currStates prev Hj Hnext Hpin;
    assert (Hin : In next row) by (eapply nth_error_In; eauto).
  - assert (Hlen : j < List.length row)
      by (apply nth_error_Some; congruence).
    simpl Nat.add. rewrite trajectory_scopes_unfold.
    destruct (has_node doc (encodeStateMap (remote_image next))) eqn:Hn.
    + eexists. eexists. split; [reflexivity|]. simpl. split; [lia|].
      now exists next.
    + rewrite row_i.
      assert (Hend : nth_error row (S j) = None)
        by (apply nth_error_None; lia).
      rewrite Hend.
      destruct (@pinned_step net_state net_nodup rf (remote_image next)
                  (remote_image next) Hpin) as [ch Hstep].
      * rewrite keys_remote_image. apply row_full.
        eapply nth_error_In; eauto.
      * unfold full_state. rewrite keys_remote_image. apply row_full.
        eapply nth_error_In; eauto.
      * rewrite Hstep, trajectory_scopes_unfold.
        rewrite has_node_connect, has_node_createNode, String.eqb_refl,
          orb_true_r.
        eexists. eexists. split; [reflexivity|]. simpl. split; [lia|].
        now exists next.
  - replace (S d + 2) with (S (d + 2)) by lia.
    rewrite trajectory_scopes_unfold.
    destruct (has_node doc (encodeStateMap (remote_image next))) eqn:Hn.
    + eexists. eexists. split; [reflexivity|]. simpl. split; [lia|].
      now exists next.
    + rewrite row_i.
      destruct (nth_error row (S j)) as [next'|] eqn:Hnext'.
      2:{ apply nth_error_None in Hnext'. lia. }
      assert (Hk' : keys next' = keys net_state)
        by (apply row_full; eapply nth_error_In; eauto).
      destruct (@pinned_step net_state net_nodup (updateNodeRules next' rf)
                  (remote_image next') (remote_image next)
                  (@pinned_update net_state net_nodup next' rf Hk')) as [ch Hstep].
      * now rewrite keys_remote_image.
      * unfold full_state. rewrite keys_remote_image. apply row_full.
        eapply nth_error_In; eauto.
      * rewrite Hstep. apply IH; [lia | exact Hnext' |].
        now apply pinned_update.
Qed.

End RemoteTrajectory.

(** X11.  Remote trajectories are bounded by the answer.  With
    [obj.scopes] set, when the service has sent for the initial state
    number [i] a list of at least two states, each with the ids of
    [network.state], the trajectory loop of that initial state ends
    after at most one iteration more than the list is long, whatever
    the rule functions, the graph and the attractors were.  Unless the
    loop ends in its first iteration, it leaves rule functions that are
    constant: they give the values of one of the states of the list,
    and no longer follow the rules of the network. *)
Theorem trajectory_scopes_bounded (net_state : State)
        (rows : list (list RemoteState)) (i : nat) (row : list RemoteState)
        (ruleFunctions : obj RuleFunction) (doc : Document)
        (attractors : list (list string)) (state : State) :
  NoDup (keys net_state) ->
  nth_error rows i = Some row ->
  2 <= List.length row ->
  (forall next, In next row -> keys next = keys net_state) ->
  full_state net_state state ->
  exists r ruleFunctions',
    trajectory_scopes (S (List.length row)) net_state (Some rows) i
                      ruleFunctions doc attractors [] "" state 0
    = Ok (r, ruleFunctions')
    /\ t_j r <= List.length row
    /\ ((t_j r = 0 /\ ruleFunctions' = ruleFunctions)
        \/ exists last, In last row
                        /\ pinned net_state ruleFunctions' (remote_image last)).
Proof.
  intros Hnd Hrow Hlen Hfull Hst. rewrite trajectory_scopes_unfold.
  destruct (has_node doc (encodeStateMap state)) eqn:Hn.
  - eexists. eexists. split; [reflexivity|]. simpl. split; [lia|].
    left. now split.
  - rewrite Hrow.
    destruct (nth_error row 1) as [next|] eqn:Hnext.
    2:{ apply nth_error_None in Hnext. lia. }
    assert (Hk : keys next = keys net_state)
      by (apply Hfull; eapply nth_error_In; eauto).
    destruct (@pinned_step net_state Hnd (updateNodeRules next ruleFunctions)
                (remote_image next) state
                (@pinned_update net_state Hnd next ruleFunctions Hk)) as [ch Hstep].
    + now rewrite keys_remote_image.
    + exact Hst.
    + rewrite Hstep.
      destruct (@remote_loop net_state Hnd rows i row Hrow Hfull
                  (List.length row - 2) 1 next
                  (updateNodeRules next ruleFunctions)
                  (connect (createNode doc (encodeStateMap state)) ""
                           (encodeStateMap state))
                  attractors ([] ++ [encodeStateMap state])%list
                  (encodeStateMap state))
        as [r [rf' [Hr [Hj Hpin]]]];
        [lia | exact Hnext | now apply pinned_update |].
      replace (List.length row - 2 + 2) with (List.length row) in Hr by lia.
      exists r, rf'. split; [exact Hr|]. split; [exact Hj | now right].
Qed.

Lemma trajectory_scopes_bounded_witness :
  exists r ruleFunctions',
    trajectory_scopes 4 (negation_state true true)
      (Some [[ [("A", Num 1); ("B", Num 1)]; [("A", Num 0); ("B", Num 1)];
               [("A", Num 0); ("B", Num 0)] ]])
      0 negation_rules new_document [] [] "" (negation_state true true) 0
    = Ok (r, ruleFunctions')
    /\ t_j r <= 3.
Proof.
  destruct (@trajectory_scopes_bounded (negation_state true true)
           [[ [("A", Num 1); ("B", Num 1)]; [("A", Num 0); ("B", Num 1)];
              [("A", Num 0); ("B", Num 0)] ]]
           0
           [ [("A", Num 1); ("B", Num 1)]; [("A", Num 0); ("B", Num 1)];
             [("A", Num 0); ("B", Num 0)] ]
           negation_rules new_document [] (negation_state true true))
    as [r [rf' [Hr [Hj _]]]].
  - repeat constructor; simpl; intuition discriminate.
  - reflexivity.
  - simpl. lia.
  - intros next [<-|[<-|[<-|[]]]]; reflexivity.
  - reflexivity.
  - exists r, rf'. split; [exact Hr | exact Hj].
Defined.

(** ** The simulation run *)

Lemma synchronousUpdate_same_ids (n1 n2 : State)
      (ruleFunctions : obj RuleFunction) (s : State) :
  keys n1 = keys n2 ->
  synchronousUpdate n1 ruleFunctions s = synchronousUpdate n2 ruleFunctions s.
Proof. unfold synchronousUpdate. now intros ->. Qed.

Lemma run_running (sim : Sim) :
  running sim = true ->
  run sim
  = singleIteration
      {| running := true;
         iterationCount := S (iterationCount sim);
         sim_state := sim_state sim;
         sim_rules := sim_rules sim;
         plot := updatePlots (plot sim) (iterationCount sim) (sim_state sim) |}.
Proof. unfold run. now intros ->. Qed.

Lemma changed_state_differs (net_state : State)
      (ruleFunctions : obj RuleFunction) (s s' : State) (c : key)
      (changed : list key) :
  synchronousUpdate net_state ruleFunctions s = Ok (s', c :: changed) ->
  s' <> s.
Proof.
  intros H E. subst s'. apply synchronousUpdate_spec in H.
  destruct H as [_ [Hin _]].
  destruct (Hin c (or_introl eq_refl)) as [f [_ [Hv Hne]]].
  apply Hne. unfold js_get. now rewrite Hv.
Qed.

(** X12.  One call of [run].  On a stopped simulator [run] does
    nothing.  On a running one whose nodes all have a rule function it
    adds to every series the point of the iteration count and the value
    the node holds before the step, counts the iteration and makes one
    synchronous update; it stops the simulator exactly when no node
    changed, the state then being a fixed point, and otherwise sets the
    timer with a state that differs from the one before. *)
Theorem run_tick (sim : Sim) :
  (running sim = false -> run sim = (sim, Ignored))
  /\ (running sim = true ->
      (forall i, In i (keys (sim_state sim)) ->
                 exists f, obj_get i (sim_rules sim) = Some f) ->
      exists sim' t,
        run sim = (sim', t)
        /\ iterationCount sim' = S (iterationCount sim)
        /\ sim_rules sim' = sim_rules sim
        /\ Forall2 (fun old new =>
                      series_name new = series_name old
                      /\ series_color new = series_color old
                      /\ series_data new
                         = (series_data old
                            ++ [(iterationCount sim,
                                 toNumber (js_get (series_name old)
                                                  (sim_state sim)))])%list)
                   (plot sim) (plot sim')
        /\ ((t = Settled /\ running sim' = false
             /\ sim_state sim' = sim_state sim
             /\ fixed_point (sim_state sim) (sim_rules sim) (sim_state sim))
            \/ (t = Scheduled /\ running sim' = true
                /\ sim_state sim' <> sim_state sim
                /\ exists changed,
                     synchronousUpdate (sim_state sim) (sim_rules sim)
                                       (sim_state sim)
                     = Ok (sim_state sim', changed)))).
Proof.
  split.
  - intros H. unfold run. now rewrite H.
  - intros Hrun Hrf. rewrite run_running by exact Hrun.
    unfold singleIteration. simpl.
    destruct (synchronousUpdate_total (sim_rules sim) (sim_state sim)
                (sim_state sim) Hrf) as [s' [changed Hstep]].
    rewrite Hstep.
    assert (Hplot : Forall2 (fun old new =>
                      series_name new = series_name old
                      /\ series_color new = series_color old
                      /\ series_data new
                         = (series_data old
                            ++ [(iterationCount sim,
                                 toNumber (js_get (series_name old)
                                                  (sim_state sim)))])%list)
                   (plot sim)
                   (updatePlots (plot sim) (iterationCount sim) (sim_state sim))).
    { unfold updatePlots. induction (plot sim) as [|sr l IH]; simpl;
        constructor; [now repeat split | exact IH]. }
    destruct changed as [|c changed]; simpl.
    + eexists. eexists. split; [reflexivity|]. simpl.
      assert (E := synchronousUpdate_unchanged _ _ _ Hstep). subst s'.
      repeat split; try assumption. left. now repeat split.
    + eexists. eexists. split; [reflexivity|]. simpl.
      repeat split; try assumption. right. repeat split.
      * eapply changed_state_differs; eauto.
      * eauto.
Qed.

Lemma run_tick_witness :
  exists sim' t,
    run {| running := true; iterationCount := 4;
           sim_state := constant_state false; sim_rules := constant_rules;
           plot := [] |} = (sim', t)
    /\ iterationCount sim' = 5.
Proof.
  destruct (proj2 (run_tick {| running := true; iterationCount := 4;
                               sim_state := constant_state false;
                               sim_rules := constant_rules; plot := [] |})
                  eq_refl) as [sim' [t [H [Hc _]]]].
  - intros i [<-|[]]. eexists. reflexivity.
  - exists sim', t. split; [exact H | exact Hc].
Defined.

Lemma timer_runs_unfold (fuel : nat) (sim : Sim) :
  timer_runs (S fuel) sim
  = match run sim with
    | (sim', Scheduled) =>
        match timer_runs fuel sim' with
        | Some (sim'', t, count) => Some (sim'', t, S count)
        | None => None
        end
    | (sim', Ignored) => Some (sim', Ignored, 1)
    | (sim', Settled) => Some (sim', Settled, 1)
    | (sim', Threw) => Some (sim', Threw, 1)
    end.
Proof. simpl. destruct (run sim) as [sim' []]; reflexivity. Qed.

Lemma timer_runs_settle (ruleFunctions : obj RuleFunction) (net_state s : State) :
  fixed_point net_state ruleFunctions s ->
  forall m sim,
    running sim = true -> sim_rules sim = ruleFunctions ->
    keys (sim_state sim) = keys net_state ->
    advance m net_state ruleFunctions (sim_state sim) = Ok s ->
    exists count sim',
      timer_runs (S m) sim = Some (sim', Settled, count)
      /\ 1 <= count <= S m
      /\ sim_state sim' = s /\ running sim' = false
      /\ iterationCount sim' = iterationCount sim + count.
Proof.
  intros Hfix. induction m as [|m IH]; intros sim Hrun Hrf Hk Hadv.
  - simpl in Hadv. injection Hadv as Hs.
    cbn [timer_runs]. rewrite run_running by exact Hrun.
    unfold singleIteration. simpl.
    rewrite (@synchronousUpdate_same_ids (sim_state sim) net_state _ _ Hk), Hrf, Hs.
    unfold fixed_point in Hfix. rewrite Hfix. simpl.
    eexists. eexists. split; [reflexivity|]. simpl. repeat split; lia.
  - assert (Hadv' := Hadv). simpl in Hadv'.
    destruct (synchronousUpdate net_state ruleFunctions (sim_state sim))
      as [[s1 ch]| |] eqn:Hstep; try discriminate.
    rewrite timer_runs_unfold, run_running by exact Hrun.
    unfold singleIteration. cbn [sim_state sim_rules running iterationCount plot].
    rewrite (@synchronousUpdate_same_ids (sim_state sim) net_state _ _ Hk), Hrf, Hstep.
    destruct ch as [|c ch]; cbn [List.length Nat.ltb Nat.leb].
    + assert (E := synchronousUpdate_unchanged _ _ _ Hstep). subst s1.
      assert (Hs : sim_state sim = s).
      { rewrite advance_fixed in Hadv by exact Hstep. congruence. }
      eexists. eexists. split; [reflexivity|]. simpl. repeat split; try lia.
      exact Hs.
    + destruct (IH {| running := true;
                      iterationCount := S (iterationCount sim);
                      sim_state := s1;
                      sim_rules := ruleFunctions;
                      plot := updatePlots (plot sim) (iterationCount sim)
                                          (sim_state sim) |})
        as [count [sim' [Ht [Hc [Hst [Hr Hic]]]]]]; try reflexivity.
      * simpl. rewrite <- Hk. eapply synchronousUpdate_keys; [exact Hstep|].
        rewrite Hk. apply incl_refl.
      * exact Hadv'.
      * rewrite Ht.
        exists (S count), sim'. split; [reflexivity|].
        simpl in Hic. repeat split; try assumption; lia.
Qed.

(** X13.  The run reaches the steady state.  When [m] synchronous
    updates take the state of a running simulator to a state that an
    update leaves as it is, the calls of [run] made by the timer end
    within [m + 1] calls by stopping the simulator on that state, the
    iteration count having grown by the number of calls. *)
Theorem timer_runs_settles (sim : Sim) (m : nat) (s : State) :
  running sim = true ->
  advance m (sim_state sim) (sim_rules sim) (sim_state sim) = Ok s ->
  fixed_point (sim_state sim) (sim_rules sim) s ->
  exists count sim',
    timer_runs (S m) sim = Some (sim', Settled, count)
    /\ 1 <= count <= S m
    /\ sim_state sim' = s /\ running sim' = false
    /\ iterationCount sim' = iterationCount sim + count.
Proof.
  intros Hrun Hadv Hfix.
  now apply (@timer_runs_settle (sim_rules sim) (sim_state sim) s Hfix m sim).
Qed.

Lemma timer_runs_settles_witness :
  exists count sim',
    timer_runs 2 {| running := true; iterationCount := 0;
                    sim_state := constant_state false;
                    sim_rules := constant_rules; plot := [] |}
    = Some (sim', Settled, count)
    /\ 1 <= count <= 2
    /\ sim_state sim' = constant_state true /\ running sim' = false
    /\ iterationCount sim' = 0 + count.
Proof.
  apply (@timer_runs_settles
           {| running := true; iterationCount := 0;
              sim_state := constant_state false;
              sim_rules := constant_rules; plot := [] |}
           1 (constant_state true)); reflexivity.
Defined.

(** ** The plot and its colours *)

Lemma toString16_digit (n : N) :
  (n <= 15)%N ->
  exists ch, toString16 n = String ch EmptyString /\ is_hex ch = true.
Proof.
  intros H.
  assert (E : n = 0%N \/ n = 1%N \/ n = 2%N \/ n = 3%N \/ n = 4%N \/ n = 5%N
              \/ n = 6%N \/ n = 7%N \/ n = 8%N \/ n = 9%N \/ n = 10%N
              \/ n = 11%N \/ n = 12%N \/ n = 13%N \/ n = 14%N \/ n = 15%N)
    by lia.
  repeat (destruct E as [->|E]; [eexists; split; reflexivity|]).
  subst n. eexists. split; reflexivity.
Qed.

Lemma random_digits_spec (draw : nat -> N) :
  (forall c, (draw c <= 15)%N) ->
  forall count c color,
    exists digits,
      random_digits count draw c color = (color ++ digits, c + count)
      /\ String.length digits = count
      /\ forallb is_hex (list_ascii_of_string digits) = true.
Proof.
  intros Hdraw. induction count as [|count IH]; intros c color; simpl.
  - exists EmptyString. rewrite append_empty_r, Nat.add_0_r. now repeat split.
  - destruct (@toString16_digit (draw c) (Hdraw c)) as [ch [Hch Hhex]].
    destruct (IH (S c) (color ++ toString16 (draw c))) as [digits [H [Hl Hf]]].
    exists (String ch digits). rewrite H, Hch, append_assoc. simpl.
    repeat split; [f_equal; lia | now rewrite Hl | now rewrite Hhex, Hf].
Qed.

Lemma getRandomColor_spec (draw : nat -> N) (c : nat) :
  (forall c, (draw c <= 15)%N) ->
  exists color,
    getRandomColor draw c = (color, c + 6) /\ is_color color = true.
Proof.
  intros Hdraw. unfold getRandomColor.
  destruct (@random_digits_spec draw Hdraw 6 c "#") as [digits [H [Hl Hf]]].
  exists ("#" ++ digits). split; [exact H|].
  simpl. now rewrite Hl, Hf.
Qed.

(** X14.  The series of the plot.  When every draw of
    [Math.round(Math.random() * 0xF)] is at most 15, [createPlotter]
    builds one series per entry of the state, in the order of the
    state and named after the node, that starts with the point
    [(0, +value)] and has as colour [#] followed by six hexadecimal
    digits; it makes six draws per series. *)
Theorem createPlotter_series (state : State) (draw : nat -> N) (c : nat) :
  (forall c, (draw c <= 15)%N) ->
  exists series,
    createPlotter state draw c = (series, c + 6 * List.length state)
    /\ map series_name series = keys state
    /\ Forall (fun sr =>
                 is_color (series_color sr) = true
                 /\ series_data sr
                    = [(0, toNumber (js_get (series_name sr) state))])
              series.
Proof.
  intros Hdraw. unfold createPlotter.
  replace (List.length state) with (List.length (keys state))
    by (unfold keys; apply length_map).
  generalize (keys state) as ids. intros ids. revert c.
  induction ids as [|i ids IH]; intros c; cbn [createSeries].
  - exists []. simpl. rewrite Nat.add_0_r. repeat split. constructor.
  - destruct (@getRandomColor_spec draw c Hdraw) as [color [Hc Hcol]].
    rewrite Hc. destruct (IH (c + 6)) as [rest [Hr [Hn Hall]]].
    rewrite Hr. eexists. split; [f_equal; simpl; lia|]. simpl.
    split; [now rewrite Hn|]. constructor; [now split | exact Hall].
Qed.

Lemma createPlotter_series_witness :
  exists series,
    createPlotter (negation_state true false) (fun c => N.of_nat (c mod 16)) 0
    = (series, 12)
    /\ map series_name series = ["A"; "B"].
Proof.
  destruct (@createPlotter_series (negation_state true false)
              (fun c => N.of_nat (c mod 16)) 0) as [series [H [Hn _]]].
  - intros c. pose proof (Nat.mod_upper_bound c 16). lia.
  - exists series. split; [exact H | exact Hn].
Defined.

(** ** What the exports rewrite *)

Lemma lacks_append (c : ascii) (a b : string) :
  lacks c (a ++ b) = (lacks c a && lacks c b)%bool.
Proof.
  induction a as [|x a IH]; simpl; [reflexivity|].
  now rewrite IH, andb_assoc.
Qed.

Lemma prefix_append (pat rest : string) : String.prefix pat (pat ++ rest) = true.
Proof.
  induction pat as [|p pat IH]; simpl; [now destruct rest|].
  destruct (ascii_dec p p); [exact IH | congruence].
Qed.

Lemma replace_from_skip (pat rep w : string) :
  forall rest,
    replace_from pat rep (String.length w) (w ++ rest)
    = replace_from pat rep 0 rest.
Proof.
  induction w as [|x w IH]; intros rest; simpl; [reflexivity|]. apply IH.
Qed.

(** A text without the first character of the pattern is kept. *)
Lemma replace_all_lacks (p : ascii) (pat rep s : string) :
  lacks p s = true -> replace_all (String p pat) rep s = s.
Proof.
  unfold replace_all. induction s as [|x s IH]; simpl; [reflexivity|].
  intros H. apply andb_prop in H. destruct H as [Hx Hs].
  destruct (ascii_dec p x) as [->|Hne].
  - rewrite Ascii.eqb_refl in Hx. discriminate.
  - now rewrite IH.
Qed.

(** The first occurrence of the pattern is replaced. *)
Lemma replace_all_first (p : ascii) (pat rep a b : string) :
  lacks p a = true ->
  replace_all (String p pat) rep (a ++ String p pat ++ b)
  = a ++ rep ++ replace_all (String p pat) rep b.
Proof.
  unfold replace_all. induction a as [|x a IH]; intros H.
  - cbn [append replace_from].
    change (String p (pat ++ b)) with (String p pat ++ b).
    rewrite prefix_append.
    replace (String.length (String p pat) - 1) with (String.length pat)
      by (simpl; lia).
    now rewrite replace_from_skip.
  - simpl in H. apply andb_prop in H. destruct H as [Hx Ha].
    cbn [append replace_from].
    change (String p (pat ++ b)) with (String p pat ++ b).
    assert (Hpre : String.prefix (String p pat) (String x (a ++ String p pat ++ b))
                   = false).
    { simpl. destruct (ascii_dec p x) as [->|Hne]; [|reflexivity].
      rewrite Ascii.eqb_refl in Hx. discriminate. }
    rewrite Hpre. f_equal. now apply IH.
Qed.

Lemma plain_lacks (s : string) :
  plain s = true ->
  lacks "&" s = true /\ lacks "|" s = true /\ lacks "t" s = true
  /\ lacks "f" s = true /\ lacks "!" s = true.
Proof.
  unfold plain. intros H.
  repeat (apply andb_prop in H; destruct H as [H ?]). tauto.
Qed.

Ltac lacks_solve :=
  rewrite ?lacks_append; simpl;
  repeat match goal with
         | H : lacks _ _ = true |- _ => rewrite H
         end; reflexivity.

Ltac keep p pat rep :=
  rewrite (@replace_all_lacks p pat rep) by lacks_solve.



(** X16.  What the Python BooleanNet export rewrites.  Around texts
    without the characters [&], [|], [t], [f], [!], the export turns
    [&&] into [and], [||] into [or], [true] into [True] and [false]
    into [False], adding no blank of its own, and keeps such texts
    themselves; each line is the id of the node followed by [* = ] and
    the rewritten rule. *)
Theorem exportPythonBooleanNet_rewrites (a b : string) :
  plain a = true -> plain b = true ->
  booleannet_rule a = a
  /\ booleannet_rule (a ++ "&&" ++ b) = a ++ "and" ++ b
  /\ booleannet_rule (a ++ "||" ++ b) = a ++ "or" ++ b
  /\ booleannet_rule (a ++ "true" ++ b) = a ++ "True" ++ b
  /\ booleannet_rule (a ++ "false" ++ b) = a ++ "False" ++ b
  /\ forall (rs : obj string) (i : key),
       exportPythonBooleanNet (rs ++ [(i, a)])%list
       = exportPythonBooleanNet rs ++ i ++ "* = " ++ a ++ newline.
Proof.
  intros Ha Hb.
  destruct (plain_lacks a Ha) as [Ha1 [Ha2 [Ha3 [Ha4 Ha5]]]].
  destruct (plain_lacks b Hb) as [Hb1 [Hb2 [Hb3 [Hb4 Hb5]]]].
  assert (Hkeep : booleannet_rule a = a).
  { unfold booleannet_rule. keep "&"%char "&" "and". keep "|"%char "|" "or".
    keep "t"%char "rue" "True". keep "f"%char "alse" "False".
    keep "!"%char "" "not". reflexivity. }
  unfold booleannet_rule.
  split; [exact Hkeep|]. split; [|split; [|split; [|split]]].
  - rewrite (@replace_all_first "&" "&" "and" a b Ha1).
    keep "&"%char "&" "and". keep "|"%char "|" "or".
    keep "t"%char "rue" "True". keep "f"%char "alse" "False".
    keep "!"%char "" "not". reflexivity.
  - keep "&"%char "&" "and".
    rewrite (@replace_all_first "|" "|" "or" a b Ha2).
    keep "|"%char "|" "or".
    keep "t"%char "rue" "True". keep "f"%char "alse" "False".
    keep "!"%char "" "not". reflexivity.
  - keep "&"%char "&" "and". keep "|"%char "|" "or".
    rewrite (@replace_all_first "t" "rue" "True" a b Ha3).
    keep "t"%char "rue" "True". keep "f"%char "alse" "False".
    keep "!"%char "" "not". reflexivity.
  - keep "&"%char "&" "and". keep "|"%char "|" "or".
    keep "t"%char "rue" "True".
    rewrite (@replace_all_first "f" "alse" "False" a b Ha4).
    keep "f"%char "alse" "False". keep "!"%char "" "not". reflexivity.
  - intros rs i. unfold exportPythonBooleanNet. rewrite fold_left_app.
    cbn [fold_left fst snd]. now rewrite Hkeep.
Qed.

Lemma exportPythonBooleanNet_rewrites_witness :
  booleannet_rule ("A " ++ "&&" ++ " B") = "A " ++ "and" ++ " B".
Proof.
  apply (@exportPythonBooleanNet_rewrites "A " " B"); reflexivity.
Defined.

(** ** Boolean networks stay Boolean, and keys decode to their states *)

Lemma advance_full_boolean (net_state : State)
      (ruleFunctions : obj RuleFunction) :
  boolean_rules net_state ruleFunctions ->
  forall m s,
    full_state net_state s -> boolean_state s = true ->
    exists s', advance m net_state ruleFunctions s = Ok s'
               /\ full_state net_state s' /\ boolean_state s' = true.
Proof.
  intros Hrules. induction m as [|m IH]; intros s Hfull Hb; simpl.
  - now exists s.
  - destruct (step_full_boolean Hrules Hfull Hb) as [s1 [ch [Hstep [Hf1 Hb1]]]].
    rewrite Hstep. now apply IH.
Qed.

(** X17.  Boolean networks stay Boolean.  When the rule function of
    every dynamic node is the function of a Boolean expression that
    reads dynamic nodes only, any number of synchronous updates of a
    full Boolean state succeeds and gives a full Boolean state: no
    entry is added, lost, moved or set to [undefined]. *)
Theorem boolean_network_invariant (net_state : State)
        (ruleFunctions : obj RuleFunction) (m : nat) (s : State) :
  (forall i, In i (keys net_state) ->
     exists e, obj_get i ruleFunctions = Some (ruleBody e)
               /\ incl (rule_ids e) (keys net_state)) ->
  full_state net_state s -> boolean_state s = true ->
  exists s', advance m net_state ruleFunctions s = Ok s'
             /\ keys s' = keys net_state /\ boolean_state s' = true.
Proof.
  intros Hrules Hfull Hb. apply advance_full_boolean; try assumption.
  intros i Hi. destruct (Hrules i Hi) as [e [He Hids]].
  exists (ruleBody e). split; [exact He|].
  intros s0 Hf0 Hb0. now apply (@ruleBody_boolean net_state).
Qed.

Lemma boolean_network_invariant_witness :
  exists s', advance 7 (negation_state true true) negation_rules
                     (negation_state true true) = Ok s'
             /\ keys s' = ["A"; "B"] /\ boolean_state s' = true.
Proof.
  apply (@boolean_network_invariant (negation_state true true) negation_rules
           7 (negation_state true true)); try reflexivity.
  intros i [<-|[<-|[]]]; eexists; (split; [reflexivity|]);
    intros x [<-|[]]; simpl; tauto.
Defined.

Lemma bit_key_cons (n : nat) (k : string) :
  In k (bit_keys (S n)) ->
  exists (b : bool) (k' : string),
    k = String (if b then "1" else "0")%char k' /\ In k' (bit_keys n).
Proof.
  simpl. intros H. apply in_app_or in H.
  destruct H as [H|H]; apply in_map_iff in H; destruct H as [k' [<- Hk']].
  - now exists false, k'.
  - now exists true, k'.
Qed.

Lemma encode_decode_entries (ids : list key) :
  forall p k,
    In k (bit_keys (List.length ids)) ->
    encodeStateMap (decode_entries ids (p ++ k) (String.length p)) = k.
Proof.
  induction ids as [|i ids IH]; intros p k Hk; simpl in Hk.
  - destruct Hk as [<-|[]]. reflexivity.
  - destruct (@bit_key_cons (List.length ids) k Hk) as [b [k' [-> Hk']]].
    cbn [decode_entries]. rewrite encode_cons, decoded_value_char.
    rewrite append_char_shift,
      <- length_append_char with (c := if b then "1"%char else "0"%char).
    rewrite IH by exact Hk'. now destruct b.
Qed.

Lemma boolean_decode_entries (ids : list key) (map : string) :
  forall j, boolean_state (decode_entries ids map j) = true.
Proof.
  induction ids as [|i ids IH]; intros j; [reflexivity|]. simpl. apply IH.
Qed.

(** X18.  Keys decode to their states.  For a well-formed
    [network.state] of [n] nodes and every key of [n] characters ['0']
    or ['1'], encoding the state that [decodeStateMap] builds from the
    key gives the key back: the nodes of the transition graph stand for
    distinct full Boolean states. *)
Theorem encode_decode (net_state : State) (k : string) :
  obj_wf net_state ->
  In k (bit_keys (List.length (keys net_state))) ->
  encodeStateMap (decodeStateMap net_state k) = k
  /\ full_state net_state (decodeStateMap net_state k)
  /\ boolean_state (decodeStateMap net_state k) = true.
Proof.
  intros Hwf Hk. rewrite decodeStateMap_entries by exact Hwf.
  split; [exact (@encode_decode_entries (keys net_state) "" k Hk)|].
  split; [apply keys_decode_entries | apply boolean_decode_entries].
Qed.

Lemma encode_decode_witness :
  encodeStateMap (decodeStateMap (negation_state true true) "01") = "01"
  /\ full_state (negation_state true true)
                (decodeStateMap (negation_state true true) "01")
  /\ boolean_state (decodeStateMap (negation_state true true) "01") = true.
Proof.
  apply (@encode_decode (negation_state true true) "01"); [reflexivity|].
  simpl. tauto.
Defined.

(** ** States sent to the service and seeds received from it *)

Lemma export_entries_app (entries : State) :
  forall pre exported,
    keys_ordered (pre ++ keys entries) = true -> keys exported = pre ->
    export_entries entries exported
    = (exported
       ++ map (fun p : key * jsval =>
                 (fst p, if truthy (snd p) then Num 1 else Num 0)) entries)%list.
Proof.
  induction entries as [|[j v] entries IH]; intros pre exported Hord Hk; simpl.
  - now rewrite app_nil_r.
  - simpl in Hord. destruct (keys_ordered_prefix _ _ _ Hord) as [Hnew Hb].
    rewrite obj_set_last by (rewrite Hk; assumption).
    rewrite (IH (pre ++ [j])%list).
    + now rewrite <- app_assoc.
    + now rewrite <- app_assoc.
    + unfold keys in *. rewrite map_app, Hk. reflexivity.
Qed.

Lemma applyGuessSeed_spec (seed : RemoteState) :
  forall state,
    NoDup (keys seed) ->
    (forall i v, In (i, v) seed ->
       obj_get i (applyGuessSeed seed state) = Some (JBool (numToBoolean v)))
    /\ (forall i, ~ In i (keys seed) ->
          obj_get i (applyGuessSeed seed state) = obj_get i state)
    /\ (incl (keys seed) (keys state) ->
        keys (applyGuessSeed seed state) = keys state).
Proof.
  induction seed as [|[k w] seed IH]; intros state Hnd; simpl.
  - split; [intros i v []|]. split; reflexivity.
  - inversion Hnd as [|? ? Hnew Hnd']; subst.
    destruct (IH (obj_set k (JBool (numToBoolean w)) state) Hnd')
      as [Hin [Hout Hkeys]].
    split; [|split].
    + intros i v [E|Hi]; [|now apply Hin]. injection E as -> ->.
      rewrite Hout by exact Hnew. apply obj_get_set_same.
    + intros i Hi. rewrite Hout by tauto. apply obj_get_set_other.
      intros E. apply Hi. now left.
    + intros Hincl.
      assert (Hk : In k (keys state)) by (apply Hincl; now left).
      rewrite Hkeys; rewrite keys_set_present by exact Hk; [reflexivity|].
      intros x Hx. apply Hincl. now right.
Qed.

(** X19.  Export and seed are inverse on Boolean states.  The object
    that [exportStateJSON] makes of a well-formed state has the ids of
    the state in their order, with [1] for [true] and [0] for any other
    value; and when the object made of a Boolean state [s] is applied
    as seed to a state with the same ids, the state becomes [s].  A
    seed changes only the nodes it names and leaves Booleans in them. *)
Theorem export_seed_round_trip (s state : State) :
  obj_wf s ->
  export_entries s []
  = map (fun p : key * jsval =>
           (fst p, if truthy (snd p) then Num 1 else Num 0)) s
  /\ (boolean_state s = true -> keys state = keys s ->
      applyGuessSeed (export_entries s []) state = s)
  /\ (forall seed i, NoDup (keys seed) -> ~ In i (keys seed) ->
        obj_get i (applyGuessSeed seed state) = obj_get i state)
  /\ (forall seed i v, NoDup (keys seed) -> In (i, v) seed ->
        obj_get i (applyGuessSeed seed state)
        = Some (JBool (numToBoolean v))).
Proof.
  intros Hwf.
  assert (Hnd : NoDup (keys s)) by now apply keys_ordered_nodup.
  assert (Hexp : export_entries s []
                 = map (fun p : key * jsval =>
                          (fst p, if truthy (snd p) then Num 1 else Num 0)) s)
    by (now rewrite (@export_entries_app s [] [])).
  split; [exact Hexp|]. split; [|split].
  - intros Hb Hk. rewrite Hexp.
    set (seed := map (fun p : key * jsval =>
                        (fst p, if truthy (snd p) then Num 1 else Num 0)) s).
    assert (Hks : keys seed = keys s)
      by (unfold seed, keys; now rewrite map_map).
    assert (Hnds : NoDup (keys seed)) by now rewrite Hks.
    destruct (@applyGuessSeed_spec seed state Hnds) as [Hin [_ Hkeys]].
    assert (Hk' : keys (applyGuessSeed seed state) = keys s).
    { rewrite Hkeys; [exact Hk|]. rewrite Hks, Hk. apply incl_refl. }
    apply states_equal; [exact Hk' | now rewrite Hk' |].
    intros k Hin'. rewrite Hk' in Hin'.
    destruct (obj_get k s) as [v|] eqn:Ev.
    2:{ apply obj_get_none_iff in Ev. contradiction. }
    assert (Hv : is_bool v = true).
    { apply obj_get_in in Ev. unfold boolean_state in Hb.
      rewrite forallb_forall in Hb. exact (Hb (k, v) Ev). }
    rewrite (Hin k (if truthy v then Num 1 else Num 0)).
    + destruct v as [[]|]; [reflexivity | reflexivity | discriminate].
    + unfold seed. apply in_map_iff. exists (k, v). split; [reflexivity|].
      now apply obj_get_in.
  - intros seed i Hnds Hi. now apply applyGuessSeed_spec.
  - intros seed i v Hnds Hi. now apply applyGuessSeed_spec.
Qed.

Lemma export_seed_round_trip_witness :
  export_entries (negation_state true false) []
  = [("A", Num 1); ("B", Num 0)]
  /\ applyGuessSeed (export_entries (negation_state true false) [])
                    (negation_state false false)
     = negation_state true false.
Proof.
  destruct (@export_seed_round_trip (negation_state true false)
              (negation_state false false) eq_refl) as [H1 [H2 _]].
  split; [exact H1 | now apply H2].
Defined.

(** ** What every search finds, and the shape of its graph *)

Section SearchShape.

Variable net_state : State.
Variable ruleFunctions : obj RuleFunction.

(** A trajectory in a graph that holds its own keys only ends on one
    of them, and records an attractor. *)
Lemma trajectory_own_graph (fuel : nat) :
  forall doc attractors currStates prev state j r,
    doc_nodes doc = currStates ->
    trajectory fuel net_state ruleFunctions doc attractors currStates prev
               state j = Ok r ->
    exists c, t_attractors r = (attractors ++ [c])%list.
Proof.
  induction fuel as [|fuel IH];
    intros doc attractors currStates prev state j r Hnodes H; [discriminate|].
  rewrite trajectory_unfold in H.
  destruct (has_node doc (encodeStateMap state)) eqn:Hn.
  - injection H as <-. simpl. apply has_node_true in Hn. rewrite Hnodes in Hn.
    destruct (indexOf (encodeStateMap state) currStates) as [idx|] eqn:Hi;
      [eauto|].
    apply indexOf_none in Hi. contradiction.
  - destruct (synchronousUpdate net_state ruleFunctions state)
      as [[state' ch]| |]; try discriminate.
    apply IH in H; [exact H|].
    rewrite doc_nodes_connect. simpl. now rewrite Hnodes.
Qed.

Lemma trajectory_attractors_grow (fuel : nat) :
  forall doc attractors currStates prev state j r,
    trajectory fuel net_state ruleFunctions doc attractors currStates prev
               state j = Ok r ->
    exists l, t_attractors r = (attractors ++ l)%list.
Proof.
  intros doc attractors currStates prev state j r H.
  apply trajectory_exit in H. destruct H as [_ [_ Hrec]].
  destruct Hrec as [[_ ->]|[pre [post [_ [_ ->]]]]].
  - exists []. now rewrite app_nil_r.
  - eauto.
Qed.

Lemma search_from_attractors_grow (fuel : nat) (initStates : list State) :
  forall doc attractors doc' attractors',
    search_from fuel net_state ruleFunctions initStates doc attractors
    = Ok (doc', attractors') ->
    exists l, attractors' = (attractors ++ l)%list.
Proof.
  induction initStates as [|st rest IH]; intros doc attractors doc' attractors' H.
  - simpl in H. injection H as <- <-. exists []. now rewrite app_nil_r.
  - rewrite search_from_cons in H.
    destruct (trajectory fuel net_state ruleFunctions doc attractors [] "" st 0)
      as [r| |] eqn:Hr; try discriminate.
    apply trajectory_attractors_grow in Hr. destruct Hr as [l1 Hl1].
    apply IH in H. destruct H as [l2 ->]. rewrite Hl1.
    exists (l1 ++ l2)%list. now rewrite app_assoc.
Qed.

Lemma key_not_empty (s : State) :
  s <> [] -> 0 < String.length (encodeStateMap s).
Proof.
  destruct s as [|[k v] s]; [congruence|]. intros _.
  rewrite encode_cons, length_append.
  destruct v as [[]|]; simpl; lia.
Qed.

(** In a trajectory loop every node of the graph but the key visited
    last is the source of one arc, in the order of the nodes. *)
Lemma trajectory_sources (fuel : nat) :
  keys net_state <> [] ->
  forall doc attractors currStates prev state j r,
    full_state net_state state ->
    (map arc_source (doc_arcs doc)
     ++ match currStates with [] => [] | _ :: _ => [prev] end)%list
    = doc_nodes doc ->
    match currStates with
    | [] => prev = EmptyString
    | _ :: _ => 0 < String.length prev
    end ->
    trajectory fuel net_state ruleFunctions doc attractors currStates prev
               state j = Ok r ->
    map arc_source (doc_arcs (t_doc r)) = doc_nodes (t_doc r).
Proof.
  intros Hne. induction fuel as [|fuel IH];
    intros doc attractors currStates prev state j r Hfull Hsrc Hprev H;
    [discriminate|].
  rewrite trajectory_unfold in H.
  assert (Hconn : forall d k,
             map arc_source (doc_arcs (connect d prev k))
             = (map arc_source (doc_arcs d)
                ++ match currStates with [] => [] | _ :: _ => [prev] end)%list).
  { intros d k. unfold connect. destruct currStates as [|c cs].
    - subst prev. simpl. now rewrite app_nil_r.
    - apply Nat.ltb_lt in Hprev. rewrite Hprev. simpl.
      now rewrite map_app. }
  destruct (has_node doc (encodeStateMap state)) eqn:Hn.
  - injection H as <-. simpl. rewrite doc_nodes_connect, Hconn. exact Hsrc.
  - destruct (synchronousUpdate net_state ruleFunctions state)
      as [[state' ch]| |] eqn:Hstep; try discriminate.
    assert (Hkey : 0 < String.length (encodeStateMap state)).
    { apply key_not_empty. intros E. apply Hne. rewrite <- Hfull, E.
      reflexivity. }
    apply IH in H; [exact H | | |].
    + unfold full_state. rewrite <- Hfull.
      eapply synchronousUpdate_keys; [exact Hstep|].
      rewrite Hfull. apply incl_refl.
    + rewrite doc_nodes_connect, Hconn. simpl. rewrite Hsrc.
      now destruct currStates.
    + now destruct currStates.
Qed.

Lemma search_from_sources (fuel : nat) (initStates : list State) :
  keys net_state <> [] ->
  (forall st, In st initStates -> full_state net_state st) ->
  forall doc attractors doc' attractors',
    map arc_source (doc_arcs doc) = doc_nodes doc ->
    search_from fuel net_state ruleFunctions initStates doc attractors
    = Ok (doc', attractors') ->
    map arc_source (doc_arcs doc') = doc_nodes doc'.
Proof.
  intros Hne. induction initStates as [|st rest IH];
    intros Hall doc attractors doc' attractors' Hsrc H.
  - simpl in H. now injection H as <- <-.
  - rewrite search_from_cons in H.
    destruct (trajectory fuel net_state ruleFunctions doc attractors [] "" st 0)
      as [r| |] eqn:Hr; try discriminate.
    apply trajectory_sources in Hr; try assumption.
    + apply (IH (fun x Hx => Hall x (or_intror Hx)) _ _ _ _ Hr H).
    + apply Hall. now left.
    + simpl. now rewrite app_nil_r.
    + reflexivity.
Qed.

End SearchShape.

Lemma getInitStates_cons (net_state : State) (rnd : nat -> bool) :
  exists st rest, getInitStates net_state rnd = st :: rest.
Proof.
  unfold getInitStates.
  change (init_states 30 net_state rnd 0)
    with (let (st, c') := random_state (keys net_state) rnd 0 [] in
          st :: init_states 29 net_state rnd c').
  destruct (random_state (keys net_state) rnd 0 []) as [st c']. eauto.
Qed.

(** X20.  Every search finds an attractor.  For a network whose rule
    functions give Booleans on full Boolean states, [search] returns
    within [2 ^ n + 1] iterations per trajectory with an attractor list
    that is not empty; and whenever [search] returns, whatever the rule
    functions, its attractor list is not empty, the trajectory of the
    first initial state having recorded one. *)
Theorem search_finds_attractor (net_state : State)
        (ruleFunctions : obj RuleFunction) (rnd : nat -> bool) :
  (forall fuel doc attractors,
      search fuel net_state ruleFunctions rnd = Ok (doc, attractors) ->
      attractors <> [])
  /\ (obj_wf net_state -> boolean_rules net_state ruleFunctions ->
      exists doc attractors,
        search (2 ^ List.length (keys net_state) + 1) net_state ruleFunctions
               rnd = Ok (doc, attractors)
        /\ attractors <> []).
Proof.
  assert (Hany : forall fuel doc attractors,
             search fuel net_state ruleFunctions rnd = Ok (doc, attractors) ->
             attractors <> []).
  { intros fuel doc attractors H. unfold search in H.
    destruct (getInitStates_cons net_state rnd) as [st [rest E]].
    rewrite E, search_from_cons in H.
    destruct (trajectory fuel net_state ruleFunctions new_document [] [] "" st 0)
      as [r| |] eqn:Hr; try discriminate.
    apply trajectory_own_graph in Hr; [|reflexivity].
    destruct Hr as [c Hc]. apply search_from_attractors_grow in H.
    destruct H as [l ->]. rewrite Hc. discriminate. }
  split; [exact Hany|].
  intros Hwf Hrules.
  destruct (@search_from_terminates net_state ruleFunctions Hrules
              (getInitStates net_state rnd)) with (doc := new_document)
              (attractors := @nil (list string)) as [doc [attractors H]].
  - intros st Hst. unfold getInitStates in Hst.
    eapply init_states_full_boolean; eauto.
  - exists doc, attractors. split; [exact H|].
    exact (Hany _ doc attractors H).
Qed.

Lemma search_finds_attractor_witness :
  (exists doc attractors,
      search 5 (negation_state true true) negation_rules Nat.even
      = Ok (doc, attractors)
      /\ attractors <> [])
  /\ [["11"; "00"]; ["10"]] <> [].
Proof.
  split.
  - apply (proj2 (@search_finds_attractor (negation_state true true)
                    negation_rules Nat.even)).
    + reflexivity.
    + apply negation_rules_boolean.
  - eapply (proj1 (@search_finds_attractor (negation_state true true)
                     negation_rules (fun c => Nat.even (c / 3))) 5).
    vm_compute. reflexivity.
Defined.

(** X21.  One outgoing arc per node.  For a network with at least one
    dynamic node, whenever [search] returns, the sources of the arcs of
    its document are the nodes of the document, each once and in the
    order in which the nodes were created: every state of the graph has
    exactly one arc to its successor. *)
Theorem search_one_arc_per_node (fuel : nat) (net_state : State)
        (ruleFunctions : obj RuleFunction) (rnd : nat -> bool)
        (doc : Document) (attractors : list (list string)) :
  obj_wf net_state ->
  keys net_state <> [] ->
  search fuel net_state ruleFunctions rnd = Ok (doc, attractors) ->
  map arc_source (doc_arcs doc) = doc_nodes doc.
Proof.
  intros Hwf Hne H. unfold search in H.
  apply (@search_from_sources net_state ruleFunctions fuel
           (getInitStates net_state rnd) Hne) in H; [exact H| |reflexivity].
  intros st Hst. unfold getInitStates in Hst.
  now apply (init_states_full_boolean _ _ Hwf) in Hst.
Qed.

Lemma search_one_arc_per_node_witness :
  exists doc attractors,
    search 5 (negation_state true true) negation_rules
           (fun c => Nat.even (c / 3))
    = Ok (doc, attractors)
    /\ List.length (doc_nodes doc) = 3
    /\ map arc_source (doc_arcs doc) = doc_nodes doc.
Proof.
  eexists. eexists. split; [vm_compute; reflexivity|].
  split; [reflexivity|].
  apply (@search_one_arc_per_node 5 (negation_state true true) negation_rules
           (fun c => Nat.even (c / 3)) _ [["11"; "00"]; ["10"]]);
    [reflexivity | discriminate |].
  vm_compute. reflexivity.
Defined.
